(** * power_system_simulator.py: the power-factor model and its session

    A shallow embedding of [src/power_system_simulator.py].

    Numbers.  The program computes with Python floats; here they are the
    real numbers of the Standard Library, so every statement below is about
    the exact arithmetic the program approximates (no rounding, no overflow,
    no NaN).  [math.sqrt], [math.atan2], [math.cos], [math.sin] are the
    mathematical functions.

    Errors.  The two operations of the program that can raise on real
    arguments, [/] (ZeroDivisionError) and [math.sqrt] (ValueError), are
    fallible here: code that uses them lives in the [result] monad.

    State.  The attributes of [PowerSystemSimulator] and of its three
    [RotaryDial]s are records; methods are functions from state to
    [result] state.  The Tk event loop is a step function over the events
    the program binds: a drag on a dial, a click on one of the two mode
    buttons, and the firing of a callback scheduled with [root.after]. *)

From Stdlib Require Import Reals Lra Lia ZArith List Bool.
Import ListNotations.
Local Open Scope R_scope.

(** ** Exceptions *)

Inductive exn : Type :=
| ZeroDivisionError
| ValueError.

Definition result (A : Type) : Type := (exn + A)%type.

Definition ret {A : Type} (a : A) : result A := inr a.

Definition raise {A : Type} (e : exn) : result A := inl e.

Definition bind {A B : Type} (m : result A) (k : A -> result B) : result B :=
  match m with
  | inl e => inl e
  | inr a => k a
  end.

Notation "x <- m ;; k" := (bind m (fun x => k))
  (at level 61, m at next level, right associativity).

(** ** Python builtins and the [math] and [random] modules *)

(** [x / y] on floats. *)
Definition truediv (x y : R) : result R :=
  if Req_dec_T y 0 then raise ZeroDivisionError else ret (x / y).

(** [math.sqrt(x)]. *)
Definition math_sqrt (x : R) : result R :=
  if Rlt_dec x 0 then raise ValueError else ret (sqrt x).

(** [math.atan2(y, x)]: the angle of the point [(x, y)], in (-pi, pi],
    and 0 at the origin. *)
Definition math_atan2 (y x : R) : R :=
  if Rlt_dec 0 x then atan (y / x)
  else if Rlt_dec x 0 then
    if Rlt_dec y 0 then atan (y / x) - PI else atan (y / x) + PI
  else if Rlt_dec 0 y then PI / 2
  else if Rlt_dec y 0 then - (PI / 2)
  else 0.

(** [math.degrees(x)] and [math.radians(x)]. *)
Definition math_degrees (x : R) : R := x * (180 / PI).

Definition math_radians (x : R) : R := x * (PI / 180).

(** [min(a, b)] and [max(a, b)]: the first argument is kept unless the
    second is strictly smaller (larger). *)
Definition py_min (a b : R) : R := if Rlt_dec b a then b else a.

Definition py_max (a b : R) : R := if Rlt_dec a b then b else a.

(** [math.floor(x)], as an integer. *)
Definition math_floor (x : R) : Z := Int_part x.

(** [x % y] on floats: the result has the sign of [y]. *)
Definition py_mod (x y : R) : result R :=
  if Req_dec_T y 0 then raise ZeroDivisionError
  else ret (x - y * IZR (math_floor (x / y))).

(** [round(x)]: the nearest integer, ties to the even one. *)
Definition py_round (x : R) : Z :=
  let f := math_floor x in
  let d := x - IZR f in
  if Rlt_dec d (1 / 2) then f
  else if Rlt_dec (1 / 2) d then (f + 1)%Z
  else if Z.even f then f else (f + 1)%Z.

(** [random.uniform(a, b)] is [a + (b - a) * random()], where [random()]
    draws [u] in [0, 1); the draw is an argument here. *)
Definition random_uniform (a b u : R) : R := a + (b - a) * u.

(** ** The power-factor model (lines 10-19) *)

(** Line 11. *)
Definition compensated_impedance_imag (impedance_imag excitation_current : R) : R :=
  impedance_imag - excitation_current * 2.

(** The returned tuple is
    [(current, power_factor, angle, real_power, apparent_power, reactive_power)]. *)
Definition calculate_power_factor
    (voltage impedance_real impedance_imag excitation_current : R)
  : result (R * R * R * R * R * R) :=
  let compensated := compensated_impedance_imag impedance_imag excitation_current in
  impedance_magnitude <- math_sqrt (impedance_real ^ 2 + compensated ^ 2) ;;
  current <- (if Rlt_dec 0 impedance_magnitude
              then truediv voltage impedance_magnitude
              else ret 0) ;;
  let angle := math_degrees (math_atan2 compensated impedance_real) in
  let real_power := voltage * current * cos (math_radians angle) in
  let apparent_power := voltage * current in
  let reactive_power := voltage * current * sin (math_radians angle) in
  power_factor <- (if Rlt_dec 0 apparent_power
                   then truediv real_power apparent_power
                   else ret 0) ;;
  ret (current, py_max 0 (py_min power_factor 1), angle,
       real_power, apparent_power, reactive_power).

(** The third component of the returned tuple. *)
Definition phase_angle (sample : R * R * R * R * R * R) : R :=
  let '(_, _, angle, _, _, _) := sample in angle.

(** The second component of the returned tuple. *)
Definition sample_power_factor (sample : R * R * R * R * R * R) : R :=
  let '(_, power_factor, _, _, _, _) := sample in power_factor.

Notation "' pat <- m ;; k" :=
  (bind m (fun x => match x with pat => k end))
  (at level 61, pat pattern, m at next level, right associativity).

(** ** class RotaryDial (lines 21-67) *)

Module RotaryDial.

Record t : Type := mk {
  min_val : R;
  max_val : R;
  value : R;
  step : R;
  angle : R
}.

Definition set_value (self : t) (v : R) : t :=
  mk (min_val self) (max_val self) v (step self) (angle self).

Definition set_angle (self : t) (a : R) : t :=
  mk (min_val self) (max_val self) (value self) (step self) a.

(** [__init__] (lines 22-33); the default of [step] is 0.5. *)
Definition init (min_val max_val initial_val step : R) : result t :=
  q <- truediv (initial_val - min_val) (max_val - min_val) ;;
  ret (mk min_val max_val initial_val step (q * 360)).

(** [on_drag] (lines 56-66), for a pointer at [(event_x, event_y)].
    [draw_dial] only paints [angle], [value] and the label.  The call of
    the callback on line 67 is made by the owner of the dial, see
    [PowerSystemSimulator.handle]. *)
Definition on_drag (self : t) (event_x event_y : Z) : result t :=
  let dx := (event_x - 100)%Z in
  let dy := (event_y - 100)%Z in
  let a := math_atan2 (IZR dy) (IZR dx) in
  degrees <- py_mod (math_degrees a + 450) 360 ;;
  let self := set_angle self degrees in
  q <- truediv (angle self) 360 ;;
  let raw_value := min_val self + (max_val self - min_val self) * q in
  r <- truediv raw_value (step self) ;;
  let self := set_value self (IZR (py_round r) * step self) in
  let self :=
    set_value self (py_max (min_val self) (py_min (max_val self) (value self))) in
  ret self.

(** What [draw_dial] puts on the canvas of a dial.  A text item is either
    the value, formatted with one decimal, or the label of the dial. *)
Inductive canvas_item : Type :=
| create_oval (x0 y0 x1 y1 : R)
| create_line (x0 y0 x1 y1 : R)
| create_text_value (x y : R) (value : R)
| create_text_label (x y : R).

(** The body of the loop of lines 39-45: the mark of hour [i]. *)
Definition tick_mark (i : nat) : canvas_item :=
  let a := math_radians (INR i * 30 - 90) in
  let x_start := 100 + 70 * cos a in
  let y_start := 100 + 70 * sin a in
  let x_end := 100 + 80 * cos a in
  let y_end := 100 + 80 * sin a in
  create_line x_start y_start x_end y_end.

(** Lines 47-49: the end of the pointer. *)
Definition pointer_tip (self : t) : R * R :=
  let pointer_angle := math_radians (angle self - 90) in
  let pointer_x := 100 + 70 * cos pointer_angle in
  let pointer_y := 100 + 70 * sin pointer_angle in
  (pointer_x, pointer_y).

(** [draw_dial] (lines 35-54): the canvas is emptied and drawn anew, so
    this list is all it holds afterwards.  [__init__], [on_drag] and
    [simulate_dynamic_load] call it after they change a dial. *)
Definition draw_dial (self : t) : list canvas_item :=
  let '(pointer_x, pointer_y) := pointer_tip self in
  create_oval 20 20 180 180
  :: map tick_mark (seq 0 12)
  ++ [create_line 100 100 pointer_x pointer_y;
      create_oval (pointer_x - 5) (pointer_y - 5) (pointer_x + 5) (pointer_y + 5);
      create_text_value 100 100 (value self);
      create_text_label 100 180].

End RotaryDial.

(** ** The status text and the plots *)

(** The four messages [update_status] can add below the readings:
    "Low Power Factor (Lagging Load)!" (line 218), "Low Power Factor
    (Leading Load)!" (line 220), "High Power Factor!" (line 222) and
    "Power Factor is Stable." (line 224). *)
Inductive advisory : Type :=
| LaggingLow
| LeadingLow
| HighPF
| Stable.

(** What the text widget holds: the block of readings written on lines
    208-214, and the messages inserted after it. *)
Inductive status_line : Type :=
| Readings (voltage real_power apparent_power reactive_power
            power_factor angle current : R)
| Message (a : advisory).

(** Lines 216-224: the messages inserted for a power factor and a
    reactive power, in the order of insertion. *)
Definition advisory_lines (power_factor reactive_power : R) : list advisory :=
  if Rlt_dec power_factor 0.95 then
    if Rlt_dec 0 reactive_power then [LaggingLow]
    else if Rlt_dec reactive_power 0 then [LeadingLow]
    else []
  else if Rlt_dec 0.98 power_factor then [HighPF]
  else if Rle_dec 0.95 power_factor then
    if Rle_dec power_factor 0.98 then [Stable] else []
  else [].

(** ** class PowerSystemSimulator (lines 69-247) *)

Inductive dial_id : Type :=
| RealImpedance
| ImagImpedance
| Excitation.

Module PowerSystemSimulator.

Record t : Type := mk {
  voltage : R;
  impedance_real : R;
  impedance_imag : R;
  excitation_current : R;
  power_factor_history : list R;
  dynamic_mode : bool;
  real_impedance_dial : RotaryDial.t;
  imag_impedance_dial : RotaryDial.t;
  excitation_dial : RotaryDial.t;
  (** the content of [status_display] *)
  status_display : list status_line;
  (** the tips of the arrows of [ax_vector] and the line of [ax_pf] *)
  ax_vector : list (R * R);
  ax_pf : list R;
  (** how many [root.after(2000, self.simulate_dynamic_load)] callbacks
      are scheduled and have not fired *)
  scheduled : nat
}.

Definition get_dial (self : t) (d : dial_id) : RotaryDial.t :=
  match d with
  | RealImpedance => real_impedance_dial self
  | ImagImpedance => imag_impedance_dial self
  | Excitation => excitation_dial self
  end.

Definition set_dial (self : t) (d : dial_id) (x : RotaryDial.t) : t :=
  mk (voltage self) (impedance_real self) (impedance_imag self)
     (excitation_current self) (power_factor_history self) (dynamic_mode self)
     (match d with RealImpedance => x | _ => real_impedance_dial self end)
     (match d with ImagImpedance => x | _ => imag_impedance_dial self end)
     (match d with Excitation => x | _ => excitation_dial self end)
     (status_display self) (ax_vector self) (ax_pf self) (scheduled self).

Definition set_dynamic_mode_flag (self : t) (b : bool) : t :=
  mk (voltage self) (impedance_real self) (impedance_imag self)
     (excitation_current self) (power_factor_history self) b
     (real_impedance_dial self) (imag_impedance_dial self) (excitation_dial self)
     (status_display self) (ax_vector self) (ax_pf self) (scheduled self).

Definition set_scheduled (self : t) (n : nat) : t :=
  mk (voltage self) (impedance_real self) (impedance_imag self)
     (excitation_current self) (power_factor_history self) (dynamic_mode self)
     (real_impedance_dial self) (imag_impedance_dial self) (excitation_dial self)
     (status_display self) (ax_vector self) (ax_pf self) n.

(** [__init__] and [setup_ui] (lines 70-145). *)
Definition init : result t :=
  let voltage := 230 in
  let impedance_real := 5 in
  let impedance_imag := 5 in
  let excitation_current := 0 in
  real_impedance_dial <- RotaryDial.init 1 20 impedance_real 0.5 ;;
  imag_impedance_dial <- RotaryDial.init 1 20 impedance_imag 0.5 ;;
  excitation_dial <- RotaryDial.init 0 10 excitation_current 0.5 ;;
  ret (mk voltage impedance_real impedance_imag excitation_current
          [] false
          real_impedance_dial imag_impedance_dial excitation_dial
          [] [] [] 0).

(** [update_status] (lines 205-226): the widget is emptied, the readings
    are written, then the messages. *)
Definition update_status (self : t)
    (real_power apparent_power reactive_power power_factor angle current : R) : t :=
  let text :=
    Readings (voltage self) real_power apparent_power reactive_power
             power_factor angle current
    :: map Message (advisory_lines power_factor reactive_power) in
  mk (voltage self) (impedance_real self) (impedance_imag self)
     (excitation_current self) (power_factor_history self) (dynamic_mode self)
     (real_impedance_dial self) (imag_impedance_dial self) (excitation_dial self)
     text (ax_vector self) (ax_pf self) (scheduled self).

(** [update_plot] (lines 228-247). *)
Definition update_plot (self : t) (angle current : R) : t :=
  let voltage_x := voltage self in
  let current_x := voltage_x * cos (math_radians angle) in
  let current_y := voltage_x * sin (math_radians angle) in
  mk (voltage self) (impedance_real self) (impedance_imag self)
     (excitation_current self) (power_factor_history self) (dynamic_mode self)
     (real_impedance_dial self) (imag_impedance_dial self) (excitation_dial self)
     (status_display self)
     [(voltage_x, 0); (current_x, current_y)] (power_factor_history self)
     (scheduled self).

(** [update_simulation] (lines 192-203). *)
Definition update_simulation (self : t) : result t :=
  let self :=
    mk (voltage self)
       (RotaryDial.value (real_impedance_dial self))
       (RotaryDial.value (imag_impedance_dial self))
       (RotaryDial.value (excitation_dial self))
       (power_factor_history self) (dynamic_mode self)
       (real_impedance_dial self) (imag_impedance_dial self) (excitation_dial self)
       (status_display self) (ax_vector self) (ax_pf self) (scheduled self) in
  '(current, power_factor, angle, real_power, apparent_power, reactive_power) <-
    calculate_power_factor (voltage self) (impedance_real self)
                           (impedance_imag self) (excitation_current self) ;;
  let self :=
    mk (voltage self) (impedance_real self) (impedance_imag self)
       (excitation_current self)
       (power_factor_history self ++ [power_factor]) (dynamic_mode self)
       (real_impedance_dial self) (imag_impedance_dial self) (excitation_dial self)
       (status_display self) (ax_vector self) (ax_pf self) (scheduled self) in
  let self :=
    update_status self real_power apparent_power reactive_power
                  power_factor angle current in
  let self := update_plot self angle current in
  ret self.

(** [set_static_mode] (lines 176-177). *)
Definition set_static_mode (self : t) : t :=
  set_dynamic_mode_flag self false.

(** [simulate_dynamic_load] (lines 183-190); [u1] and [u2] are the two
    draws of [random()] behind the two calls of [random.uniform]. *)
Definition simulate_dynamic_load (self : t) (u1 u2 : R) : result t :=
  if dynamic_mode self then
    let d := real_impedance_dial self in
    let self :=
      set_dial self RealImpedance
        (RotaryDial.set_value d (RotaryDial.value d * random_uniform 0.95 1.05 u1)) in
    let d := imag_impedance_dial self in
    let self :=
      set_dial self ImagImpedance
        (RotaryDial.set_value d (RotaryDial.value d * random_uniform 0.95 1.05 u2)) in
    self <- update_simulation self ;;
    ret (set_scheduled self (S (scheduled self)))
  else ret self.

(** [set_dynamic_mode] (lines 179-181). *)
Definition set_dynamic_mode (self : t) (u1 u2 : R) : result t :=
  let self := set_dynamic_mode_flag self true in
  simulate_dynamic_load self u1 u2.

(** *** The event loop *)

(** What [root.mainloop()] dispatches: a drag with button 1 on a dial, a
    click on "Static Mode" or "Dynamic Mode", and the firing of a
    scheduled callback.  The events that run [simulate_dynamic_load]
    carry the two draws it may consume. *)
Inductive event : Type :=
| B1Motion (d : dial_id) (x y : Z)
| StaticModeButton
| DynamicModeButton (u1 u2 : R)
| AfterFires (u1 u2 : R).

(** A drag runs [on_drag] on the dial, whose last statement calls
    [update_simulation].  A firing takes one callback off the queue and
    runs it; with nothing scheduled nothing runs. *)
Definition handle (self : t) (e : event) : result t :=
  match e with
  | B1Motion d x y =>
      dial <- RotaryDial.on_drag (get_dial self d) x y ;;
      update_simulation (set_dial self d dial)
  | StaticModeButton => ret (set_static_mode self)
  | DynamicModeButton u1 u2 => set_dynamic_mode self u1 u2
  | AfterFires u1 u2 =>
      match scheduled self with
      | O => ret self
      | S n => simulate_dynamic_load (set_scheduled self n) u1 u2
      end
  end.

(** An event can occur in a state: draws of [random()] lie in [0, 1),
    and a callback fires only if one is scheduled. *)
Definition enabled (self : t) (e : event) : Prop :=
  match e with
  | B1Motion _ _ _ => True
  | StaticModeButton => True
  | DynamicModeButton u1 u2 => 0 <= u1 < 1 /\ 0 <= u2 < 1
  | AfterFires u1 u2 =>
      (0 < scheduled self)%nat /\ 0 <= u1 < 1 /\ 0 <= u2 < 1
  end.

(** The states of a session: the one [__init__] builds, and those the
    handlers produce from them. *)
Inductive reachable : t -> Prop :=
| reachable_init : forall s, init = inr s -> reachable s
| reachable_handle : forall s e s',
    reachable s -> enabled s e -> handle s e = inr s' -> reachable s'.

(** A run of the handlers over a list of events. *)
Fixpoint run (self : t) (es : list event) : result t :=
  match es with
  | [] => ret self
  | e :: es => self <- handle self e ;; run self es
  end.

(** Whether an event, dispatched in a state, runs the body of the [if] of
    [simulate_dynamic_load] (lines 185-190): one cycle of perturbing the two
    impedance dials, recomputing, redrawing and scheduling. *)
Definition runs_cycle (self : t) (e : event) : bool :=
  match e with
  | B1Motion _ _ _ => false
  | StaticModeButton => false
  | DynamicModeButton _ _ => true
  | AfterFires _ _ =>
      match scheduled self with
      | O => false
      | S _ => dynamic_mode self
      end
  end.

(** How many such cycles a run of the handlers goes through. *)
Fixpoint cycles (self : t) (es : list event) : nat :=
  match es with
  | [] => O
  | e :: es =>
      match handle self e with
      | inl _ => O
      | inr self' => ((if runs_cycle self e then 1 else 0) + cycles self' es)%nat
      end
  end.

(** The events other than a click on "Dynamic Mode". *)
Definition keeps_mode_off (e : event) : Prop :=
  match e with
  | DynamicModeButton _ _ => False
  | _ => True
  end.

(** The three dials as [setup_ui] configures them (lines 85-114): bounds 1
    and 20 for the two impedances, 0 and 10 for the excitation current, and
    step 0.5. *)
Definition dials_configured (self : t) : Prop :=
  RotaryDial.min_val (real_impedance_dial self) = 1
  /\ RotaryDial.max_val (real_impedance_dial self) = 20
  /\ RotaryDial.step (real_impedance_dial self) = 0.5
  /\ RotaryDial.min_val (imag_impedance_dial self) = 1
  /\ RotaryDial.max_val (imag_impedance_dial self) = 20
  /\ RotaryDial.step (imag_impedance_dial self) = 0.5
  /\ RotaryDial.min_val (excitation_dial self) = 0
  /\ RotaryDial.max_val (excitation_dial self) = 10
  /\ RotaryDial.step (excitation_dial self) = 0.5.

(** The excitation current, on its dial and in the session, is within the
    bounds of its dial. *)
Definition excitation_in_range (self : t) : Prop :=
  0 <= RotaryDial.value (excitation_dial self) <= 10
  /\ 0 <= excitation_current self <= 10.


Definition is_dynamic_click (e : event) : Prop :=
  match e with
  | DynamicModeButton _ _ => True
  | _ => False
  end.

Definition is_firing (e : event) : Prop :=
  match e with
  | AfterFires _ _ => True
  | _ => False
  end.

(** The draws an event carries are draws of [random()]. *)
Definition draws_in_range (e : event) : Prop :=
  match e with
  | DynamicModeButton u1 u2 | AfterFires u1 u2 => 0 <= u1 < 1 /\ 0 <= u2 < 1
  | _ => True
  end.


(** What holds in every state of a session (see [reachable_invariant]):
    the voltage is 230, the three parameters are the values of the dials,
    the two impedances are positive, the plot shows the history, the history
    holds power factors in (0, 1], and dynamic mode comes with a scheduled
    callback. *)
Definition session_invariant (self : t) : Prop :=
  voltage self = 230
  /\ impedance_real self = RotaryDial.value (real_impedance_dial self)
  /\ impedance_imag self = RotaryDial.value (imag_impedance_dial self)
  /\ excitation_current self = RotaryDial.value (excitation_dial self)
  /\ 0 < RotaryDial.value (real_impedance_dial self)
  /\ 0 < RotaryDial.value (imag_impedance_dial self)
  /\ ax_pf self = power_factor_history self
  /\ Forall (fun p => 0 < p <= 1) (power_factor_history self)
  /\ (dynamic_mode self = true -> (0 < scheduled self)%nat).

(** The status and the vector plot are either untouched, before the first
    computation, or show the sample of the current parameters: its readings
    with exactly one message, its power factor last in the history, and the
    two arrows. *)
Definition status_shows_sample (self : t) : Prop :=
  (power_factor_history self = [] /\ status_display self = [] /\ ax_vector self = [])
  \/ exists current power_factor angle real_power apparent_power reactive_power msg h,
       calculate_power_factor (voltage self) (impedance_real self)
         (impedance_imag self) (excitation_current self)
       = inr (current, power_factor, angle, real_power, apparent_power, reactive_power)
       /\ status_display self
          = [Readings (voltage self) real_power apparent_power reactive_power
                      power_factor angle current;
             Message msg]
       /\ advisory_lines power_factor reactive_power = [msg]
       /\ power_factor_history self = h ++ [power_factor]
       /\ ax_vector self
          = [(voltage self, 0);
             (voltage self * cos (math_radians angle),
              voltage self * sin (math_radians angle))].

(** The state [simulate_dynamic_load] hands to [update_simulation]
    (lines 185-186). *)
Definition perturbed (self : t) (u1 u2 : R) : t :=
  let d := real_impedance_dial self in
  let self :=
    set_dial self RealImpedance
      (RotaryDial.set_value d (RotaryDial.value d * random_uniform 0.95 1.05 u1)) in
  let d := imag_impedance_dial self in
  set_dial self ImagImpedance
    (RotaryDial.set_value d (RotaryDial.value d * random_uniform 0.95 1.05 u2)).

(** The state [init] returns (see [init_returns]). *)
Definition initial_state : t :=
  mk 230 5 5 0 [] false
     (RotaryDial.mk 1 20 5 0.5 ((5 - 1) / (20 - 1) * 360))
     (RotaryDial.mk 1 20 5 0.5 ((5 - 1) / (20 - 1) * 360))
     (RotaryDial.mk 0 10 0 0.5 ((0 - 0) / (10 - 0) * 360))
     [] [] [] 0.

End PowerSystemSimulator.


(** * Properties *)

(** ** Python primitives *)

(** Case analysis on every comparison of reals the goal branches on,
    the innermost first. *)
Ltac no_compare t :=
  lazymatch t with
  | context [Rlt_dec _ _] => fail
  | context [Rle_dec _ _] => fail
  | _ => idtac
  end.

Ltac case_compare :=
  repeat match goal with
         | |- context [Rlt_dec ?a ?b] =>
             no_compare a; no_compare b; destruct (Rlt_dec a b)
         | |- context [Rle_dec ?a ?b] =>
             no_compare a; no_compare b; destruct (Rle_dec a b)
         end.

Lemma bind_inr {A B : Type} (a : A) (k : A -> result B) :
  bind (inr a) k = k a.
Proof. reflexivity. Qed.

Lemma truediv_nonzero (x y : R) : y <> 0 -> truediv x y = inr (x / y).
Proof.
  intros Hy. unfold truediv.
  destruct (Req_dec_T y 0) as [E | _]; [contradiction | reflexivity].
Qed.

Lemma math_sqrt_nonneg (x : R) : 0 <= x -> math_sqrt x = inr (sqrt x).
Proof.
  intros Hx. unfold math_sqrt.
  destruct (Rlt_dec x 0) as [H | _]; [lra | reflexivity].
Qed.

Lemma sum_squares_nonneg (a b : R) : 0 <= a ^ 2 + b ^ 2.
Proof. nra. Qed.

Lemma py_min_spec (a b : R) : py_min a b = Rmin a b.
Proof.
  unfold py_min, Rmin. case_compare; lra.
Qed.

Lemma py_max_spec (a b : R) : py_max a b = Rmax a b.
Proof.
  unfold py_max, Rmax. case_compare; lra.
Qed.

(** The clamp of line 19. *)
Lemma clamp_range (x : R) : 0 <= py_max 0 (py_min x 1) <= 1.
Proof.
  unfold py_max, py_min. case_compare; lra.
Qed.

Lemma clamp_below (x : R) : x < 0 -> py_max 0 (py_min x 1) = 0.
Proof.
  intros Hx. unfold py_max, py_min. case_compare; lra.
Qed.

Lemma clamp_above (x : R) : 1 < x -> py_max 0 (py_min x 1) = 1.
Proof.
  intros Hx. unfold py_max, py_min. case_compare; lra.
Qed.

Lemma clamp_inside (x : R) : 0 <= x <= 1 -> py_max 0 (py_min x 1) = x.
Proof.
  intros Hx. unfold py_max, py_min. case_compare; lra.
Qed.

Lemma radians_degrees (x : R) : math_radians (math_degrees x) = x.
Proof.
  unfold math_radians, math_degrees.
  pose proof PI_RGT_0 as HPI. field. lra.
Qed.

Lemma degrees_increasing (x y : R) : x < y -> math_degrees x < math_degrees y.
Proof.
  intros Hxy. unfold math_degrees.
  apply Rmult_lt_compat_r; [ | exact Hxy].
  pose proof PI_RGT_0 as HPI. apply Rdiv_lt_0_compat; lra.
Qed.

Lemma degrees_0 : math_degrees 0 = 0.
Proof. unfold math_degrees. lra. Qed.

(** ** What [calculate_power_factor] returns *)

(** The function returns on every input, and the six components are the
    expressions of lines 11-19 with the two guarded divisions carried out. *)
Lemma calculate_power_factor_returns (voltage impedance_real impedance_imag excitation_current : R) :
  let compensated := compensated_impedance_imag impedance_imag excitation_current in
  let impedance_magnitude := sqrt (impedance_real ^ 2 + compensated ^ 2) in
  let current :=
    if Rlt_dec 0 impedance_magnitude then voltage / impedance_magnitude else 0 in
  let angle := math_degrees (math_atan2 compensated impedance_real) in
  let real_power := voltage * current * cos (math_radians angle) in
  let apparent_power := voltage * current in
  let reactive_power := voltage * current * sin (math_radians angle) in
  let power_factor :=
    if Rlt_dec 0 apparent_power then real_power / apparent_power else 0 in
  calculate_power_factor voltage impedance_real impedance_imag excitation_current
  = inr (current, py_max 0 (py_min power_factor 1), angle,
         real_power, apparent_power, reactive_power).
Proof.
  intros. unfold calculate_power_factor.
  fold compensated.
  rewrite (math_sqrt_nonneg _ (sum_squares_nonneg impedance_real compensated)).
  rewrite bind_inr. fold impedance_magnitude.
  assert (Hcur : (if Rlt_dec 0 impedance_magnitude
                  then truediv voltage impedance_magnitude else ret 0)
                 = inr current).
  { unfold current. destruct (Rlt_dec 0 impedance_magnitude) as [Hm | Hm].
    - apply truediv_nonzero. lra.
    - reflexivity. }
  rewrite Hcur, bind_inr.
  fold angle. fold real_power. fold apparent_power. fold reactive_power.
  assert (Hpf : (if Rlt_dec 0 apparent_power
                 then truediv real_power apparent_power else ret 0)
                = inr power_factor).
  { unfold power_factor. destruct (Rlt_dec 0 apparent_power) as [Ha | Ha].
    - apply truediv_nonzero. lra.
    - reflexivity. }
  rewrite Hpf, bind_inr. reflexivity.
Qed.

(** ** Signs and monotonicity of the phase angle *)

Lemma atan_pos (t : R) : 0 < t -> 0 < atan t.
Proof. intros Ht. rewrite <- atan_0. now apply atan_increasing. Qed.

Lemma atan_neg (t : R) : t < 0 -> atan t < 0.
Proof. intros Ht. rewrite <- atan_0. now apply atan_increasing. Qed.

Lemma math_atan2_right (y x : R) : 0 < x -> math_atan2 y x = atan (y / x).
Proof.
  intros Hx. unfold math_atan2.
  destruct (Rlt_dec 0 x) as [_ | H]; [reflexivity | contradiction].
Qed.

Lemma div_pos_increasing (a b r : R) : 0 < r -> a < b -> a / r < b / r.
Proof.
  intros Hr Hab. unfold Rdiv.
  apply Rmult_lt_compat_r; [now apply Rinv_0_lt_compat | exact Hab].
Qed.

Lemma div_pos_zero (r : R) : 0 / r = 0.
Proof. unfold Rdiv. apply Rmult_0_l. Qed.

(** In the right half plane the angle grows with the ordinate. *)
Lemma math_atan2_increasing (y1 y2 x : R) :
  0 < x -> y1 < y2 -> math_atan2 y1 x < math_atan2 y2 x.
Proof.
  intros Hx Hy. rewrite !math_atan2_right by assumption.
  apply atan_increasing. now apply div_pos_increasing.
Qed.

Lemma math_atan2_zero (x : R) : 0 < x -> math_atan2 0 x = 0.
Proof.
  intros Hx. rewrite math_atan2_right by assumption.
  rewrite div_pos_zero. apply atan_0.
Qed.

Lemma math_atan2_right_bound (y x : R) :
  0 < x -> - (PI / 2) < math_atan2 y x < PI / 2.
Proof.
  intros Hx. rewrite math_atan2_right by assumption.
  pose proof (atan_bound (y / x)). lra.
Qed.

(** The sine of the angle has the sign of the ordinate. *)
Lemma sin_atan2_pos (y x : R) : 0 < x -> 0 < y -> 0 < sin (math_atan2 y x).
Proof.
  intros Hx Hy.
  pose proof (math_atan2_right_bound y x Hx) as Hb.
  pose proof (math_atan2_increasing 0 y x Hx Hy) as Hi.
  rewrite math_atan2_zero in Hi by assumption.
  pose proof PI_RGT_0. apply sin_gt_0; lra.
Qed.

Lemma sin_atan2_neg (y x : R) : 0 < x -> y < 0 -> sin (math_atan2 y x) < 0.
Proof.
  intros Hx Hy.
  pose proof (math_atan2_right_bound y x Hx) as Hb.
  pose proof (math_atan2_increasing y 0 x Hx Hy) as Hi.
  rewrite math_atan2_zero in Hi by assumption.
  pose proof PI_RGT_0. apply sin_lt_0_var; lra.
Qed.

Lemma impedance_magnitude_pos (impedance_real compensated : R) :
  0 < impedance_real -> 0 < sqrt (impedance_real ^ 2 + compensated ^ 2).
Proof. intros Hr. apply sqrt_lt_R0. nra. Qed.

(** ** Claims about [calculate_power_factor] *)

(** C1.  For a voltage that is not negative, a real impedance of at least
    1, an imaginary impedance in [1, 20] and an excitation current in
    [0, 10], the power factor that [calculate_power_factor] returns lies in
    [0, 1]: it is 0 when the quotient of real and apparent power is below
    0, 1 when that quotient is above 1, and the quotient otherwise. *)
Theorem power_factor_clamped (voltage impedance_real impedance_imag excitation_current : R) :
  0 <= voltage ->
  1 <= impedance_real ->
  1 <= impedance_imag <= 20 ->
  0 <= excitation_current <= 10 ->
  exists current power_factor angle real_power apparent_power reactive_power,
    calculate_power_factor voltage impedance_real impedance_imag excitation_current
    = inr (current, power_factor, angle, real_power, apparent_power, reactive_power)
    /\ 0 <= power_factor <= 1
    /\ (let raw := if Rlt_dec 0 apparent_power
                   then real_power / apparent_power else 0 in
        (raw < 0 -> power_factor = 0)
        /\ (1 < raw -> power_factor = 1)
        /\ (0 <= raw <= 1 -> power_factor = raw)).
Proof.
  intros _ _ _ _.
  do 6 eexists. split; [apply calculate_power_factor_returns | ].
  split; [apply clamp_range | ].
  cbv zeta. split; [ | split].
  - apply clamp_below.
  - apply clamp_above.
  - apply clamp_inside.
Qed.

(** The initial setting of the session: 230 V, impedances 5 and 5, no excitation. *)
Lemma power_factor_clamped_witness :
  (0 <= 230 /\ 1 <= 5 /\ 1 <= 5 <= 20 /\ 0 <= 0 <= 10)
  /\ exists current power_factor angle real_power apparent_power reactive_power,
      calculate_power_factor 230 5 5 0
      = inr (current, power_factor, angle, real_power, apparent_power, reactive_power)
      /\ 0 <= power_factor <= 1
      /\ (let raw := if Rlt_dec 0 apparent_power
                     then real_power / apparent_power else 0 in
          (raw < 0 -> power_factor = 0)
          /\ (1 < raw -> power_factor = 1)
          /\ (0 <= raw <= 1 -> power_factor = raw)).
Proof.
  split; [lra | ].
  apply (power_factor_clamped 230 5 5 0); lra.
Defined.


(** C4.  At voltage 230, real impedance 5, imaginary impedance 5 and
    excitation current 2.5 the function returns current 46, power factor 1,
    phase angle 0, real power 10580, apparent power 10580 and reactive power
    0; for power factor 1 and reactive power 0 the status shows the
    high-power-factor message and nothing else. *)
Theorem scenario_full_compensation :
  calculate_power_factor 230 5 5 2.5 = inr (46, 1, 0, 10580, 10580, 0)
  /\ advisory_lines 1 0 = [HighPF].
Proof.
  split.
  - rewrite calculate_power_factor_returns.
    assert (Hc : compensated_impedance_imag 5 2.5 = 0)
      by (unfold compensated_impedance_imag; lra).
    rewrite Hc.
    assert (Hm : sqrt (5 ^ 2 + 0 ^ 2) = 5).
    { replace (5 ^ 2 + 0 ^ 2) with (5 ^ 2) by lra. apply sqrt_pow2. lra. }
    rewrite Hm.
    destruct (Rlt_dec 0 5) as [_ | H]; [ | lra].
    rewrite (math_atan2_zero 5) by lra.
    rewrite degrees_0.
    assert (Hr : math_radians 0 = 0) by (unfold math_radians; lra).
    rewrite Hr, cos_0, sin_0.
    assert (Hi : 230 / 5 = 46) by lra.
    rewrite Hi.
    assert (Hp : 230 * 46 * 1 = 10580) by lra.
    assert (Ha : 230 * 46 = 10580) by lra.
    assert (Hq : 230 * 46 * 0 = 0) by lra.
    rewrite Hp, Hq, Ha.
    destruct (Rlt_dec 0 10580) as [_ | H]; [ | lra].
    assert (Hpf : 10580 / 10580 = 1) by lra.
    rewrite Hpf, (clamp_inside 1) by lra.
    reflexivity.
  - unfold advisory_lines.
    destruct (Rlt_dec 1 0.95) as [H | _]; [lra | ].
    destruct (Rlt_dec 0.98 1) as [_ | H]; [reflexivity | lra].
Qed.

(** C9.  With a positive voltage and a positive impedance magnitude the
    quotient of real and apparent power is the cosine of the returned phase
    angle, so the returned power factor is the larger of 0 and that cosine;
    the quotient is at most 1 and [min(power_factor, 1)] leaves it as it
    is. *)
Theorem power_factor_is_cosine (voltage impedance_real impedance_imag excitation_current : R) :
  0 < voltage ->
  0 < sqrt (impedance_real ^ 2
            + compensated_impedance_imag impedance_imag excitation_current ^ 2) ->
  exists current power_factor angle real_power apparent_power reactive_power,
    calculate_power_factor voltage impedance_real impedance_imag excitation_current
    = inr (current, power_factor, angle, real_power, apparent_power, reactive_power)
    /\ 0 < apparent_power
    /\ real_power / apparent_power = cos (math_radians angle)
    /\ power_factor = Rmax 0 (cos (math_radians angle))
    /\ real_power / apparent_power <= 1
    /\ py_min (real_power / apparent_power) 1 = real_power / apparent_power.
Proof.
  intros Hv Hm.
  do 6 eexists. split; [apply calculate_power_factor_returns | ].
  cbv zeta.
  destruct (Rlt_dec 0 (sqrt _)) as [_ | H]; [ | contradiction].
  set (m := sqrt _) in *.
  set (c := cos _).
  assert (Hi : 0 < voltage / m) by (apply Rdiv_lt_0_compat; assumption).
  assert (Ha : 0 < voltage * (voltage / m)) by (apply Rmult_lt_0_compat; assumption).
  assert (Hq : voltage * (voltage / m) * c / (voltage * (voltage / m)) = c)
    by (field; split; lra).
  pose proof (COS_bound (math_radians
    (math_degrees (math_atan2
       (compensated_impedance_imag impedance_imag excitation_current)
       impedance_real)))) as Hc.
  fold c in Hc.
  destruct (Rlt_dec 0 (voltage * (voltage / m))) as [_ | H]; [ | contradiction].
  rewrite Hq.
  split; [exact Ha | ].
  split; [reflexivity | ].
  split.
  { rewrite <- py_max_spec. unfold py_min.
    destruct (Rlt_dec 1 c) as [H | _]; [lra | reflexivity]. }
  split; [lra | ].
  unfold py_min. destruct (Rlt_dec 1 c) as [H | _]; [lra | reflexivity].
Qed.

(** The initial setting of the session has a positive impedance magnitude. *)
Lemma power_factor_is_cosine_witness :
  (0 < 230 /\ 0 < sqrt (5 ^ 2 + compensated_impedance_imag 5 0 ^ 2))
  /\ exists current power_factor angle real_power apparent_power reactive_power,
      calculate_power_factor 230 5 5 0
      = inr (current, power_factor, angle, real_power, apparent_power, reactive_power)
      /\ 0 < apparent_power
      /\ real_power / apparent_power = cos (math_radians angle)
      /\ power_factor = Rmax 0 (cos (math_radians angle))
      /\ real_power / apparent_power <= 1
      /\ py_min (real_power / apparent_power) 1 = real_power / apparent_power.
Proof.
  assert (Hm : 0 < sqrt (5 ^ 2 + compensated_impedance_imag 5 0 ^ 2))
    by (apply impedance_magnitude_pos; lra).
  split; [split; [lra | exact Hm] | ].
  apply (power_factor_is_cosine 230 5 5 0); [lra | exact Hm].
Defined.

(** C10.  With a positive voltage and a positive real impedance the
    reactive power has the sign of the compensated reactance: it is
    positive, zero or negative exactly when the imaginary impedance is
    above, equal to or below twice the excitation current. *)
Theorem reactive_power_sign (voltage impedance_real impedance_imag excitation_current : R) :
  0 < voltage ->
  0 < impedance_real ->
  exists current power_factor angle real_power apparent_power reactive_power,
    calculate_power_factor voltage impedance_real impedance_imag excitation_current
    = inr (current, power_factor, angle, real_power, apparent_power, reactive_power)
    /\ (0 < reactive_power <-> 2 * excitation_current < impedance_imag)
    /\ (reactive_power = 0 <-> impedance_imag = 2 * excitation_current)
    /\ (reactive_power < 0 <-> impedance_imag < 2 * excitation_current).
Proof.
  intros Hv Hr.
  do 6 eexists. split; [apply calculate_power_factor_returns | ].
  cbv zeta. rewrite radians_degrees.
  pose proof (impedance_magnitude_pos impedance_real
    (compensated_impedance_imag impedance_imag excitation_current) Hr) as Hm.
  destruct (Rlt_dec 0 (sqrt _)) as [_ | H]; [ | contradiction].
  set (m := sqrt _) in *.
  assert (Hi : 0 < voltage / m) by (apply Rdiv_lt_0_compat; assumption).
  assert (Ha : 0 < voltage * (voltage / m)) by (apply Rmult_lt_0_compat; assumption).
  set (a := voltage * (voltage / m)) in *.
  set (x := compensated_impedance_imag impedance_imag excitation_current).
  assert (Hx : x = impedance_imag - excitation_current * 2) by reflexivity.
  assert (Hpos : 0 < x -> 0 < a * sin (math_atan2 x impedance_real)).
  { intros H. apply Rmult_lt_0_compat; [exact Ha | now apply sin_atan2_pos]. }
  assert (Hneg : x < 0 -> a * sin (math_atan2 x impedance_real) < 0).
  { intros H. pose proof (sin_atan2_neg x impedance_real Hr H). nra. }
  assert (Hzero : x = 0 -> a * sin (math_atan2 x impedance_real) = 0).
  { intros H. rewrite H, math_atan2_zero, sin_0 by assumption. lra. }
  destruct (Rtotal_order x 0) as [Hlt | [Heq | Hgt]].
  - specialize (Hneg Hlt). repeat split; intros; lra.
  - specialize (Hzero Heq). repeat split; intros; lra.
  - specialize (Hpos Hgt). repeat split; intros; lra.
Qed.

(** At the initial setting the load is lagging. *)
Lemma reactive_power_sign_witness :
  (0 < 230 /\ 0 < 5)
  /\ exists current power_factor angle real_power apparent_power reactive_power,
      calculate_power_factor 230 5 5 0
      = inr (current, power_factor, angle, real_power, apparent_power, reactive_power)
      /\ (0 < reactive_power <-> 2 * 0 < 5)
      /\ (reactive_power = 0 <-> 5 = 2 * 0)
      /\ (reactive_power < 0 <-> 5 < 2 * 0).
Proof.
  split; [lra | ].
  apply (reactive_power_sign 230 5 5 0); lra.
Defined.

(** C6.  With the voltage and both impedances fixed and a positive real
    impedance, a larger excitation current gives a strictly smaller
    compensated reactance and a strictly smaller phase angle; while the
    compensated reactance stays positive the angle stays positive and so
    moves toward 0, it is 0 when the compensated reactance is 0, and it is
    negative once the compensated reactance is negative. *)
Theorem phase_angle_toward_zero (voltage impedance_real impedance_imag e1 e2 : R) :
  0 < impedance_real ->
  e1 < e2 ->
  compensated_impedance_imag impedance_imag e2
  < compensated_impedance_imag impedance_imag e1
  /\ exists sample1 sample2,
      calculate_power_factor voltage impedance_real impedance_imag e1 = inr sample1
      /\ calculate_power_factor voltage impedance_real impedance_imag e2 = inr sample2
      /\ phase_angle sample2 < phase_angle sample1
      /\ (0 < compensated_impedance_imag impedance_imag e2 ->
          0 < phase_angle sample2 < phase_angle sample1)
      /\ (compensated_impedance_imag impedance_imag e2 = 0 ->
          phase_angle sample2 = 0 /\ 0 < phase_angle sample1)
      /\ (compensated_impedance_imag impedance_imag e2 < 0 ->
          phase_angle sample2 < 0).
Proof.
  intros Hr He.
  assert (Hc : compensated_impedance_imag impedance_imag e2
               < compensated_impedance_imag impedance_imag e1)
    by (unfold compensated_impedance_imag; lra).
  split; [exact Hc | ].
  do 2 eexists.
  split; [apply calculate_power_factor_returns | ].
  split; [apply calculate_power_factor_returns | ].
  cbv zeta. unfold phase_angle.
  set (x1 := compensated_impedance_imag impedance_imag e1) in *.
  set (x2 := compensated_impedance_imag impedance_imag e2) in *.
  assert (Hlt : math_degrees (math_atan2 x2 impedance_real)
                < math_degrees (math_atan2 x1 impedance_real))
    by (apply degrees_increasing, math_atan2_increasing; assumption).
  assert (Hsign_pos : forall x, 0 < x ->
            0 < math_degrees (math_atan2 x impedance_real)).
  { intros x Hx. rewrite <- degrees_0.
    apply degrees_increasing.
    rewrite <- (math_atan2_zero impedance_real Hr).
    now apply math_atan2_increasing. }
  assert (Hsign_neg : forall x, x < 0 ->
            math_degrees (math_atan2 x impedance_real) < 0).
  { intros x Hx. rewrite <- degrees_0.
    apply degrees_increasing.
    rewrite <- (math_atan2_zero impedance_real Hr).
    now apply math_atan2_increasing. }
  split; [exact Hlt | ].
  split; [ | split].
  - intros H2. split; [now apply Hsign_pos | exact Hlt].
  - intros H2. split.
    + rewrite H2, math_atan2_zero by assumption. apply degrees_0.
    + apply Hsign_pos. lra.
  - intros H2. now apply Hsign_neg.
Qed.

(** Raising the excitation current from 0 to 1 at impedances 5 and 5. *)
Lemma phase_angle_toward_zero_witness :
  (0 < 5 /\ 0 < 1)
  /\ compensated_impedance_imag 5 1 < compensated_impedance_imag 5 0
  /\ exists sample1 sample2,
      calculate_power_factor 230 5 5 0 = inr sample1
      /\ calculate_power_factor 230 5 5 1 = inr sample2
      /\ phase_angle sample2 < phase_angle sample1
      /\ (0 < compensated_impedance_imag 5 1 ->
          0 < phase_angle sample2 < phase_angle sample1)
      /\ (compensated_impedance_imag 5 1 = 0 ->
          phase_angle sample2 = 0 /\ 0 < phase_angle sample1)
      /\ (compensated_impedance_imag 5 1 < 0 ->
          phase_angle sample2 < 0).
Proof.
  split; [lra | ].
  apply (phase_angle_toward_zero 230 5 5 0 1); lra.
Defined.

(** ** The advisory messages *)

(** C2.  The messages below the readings follow the table: below 0.95 the
    lagging message for a positive reactive power, the leading message for
    a negative one and none for 0; above 0.98 the high-power-factor message;
    from 0.95 to 0.98, both included, the stable message.  At exactly 0.98
    the message is the stable one, and no call inserts more than one. *)
Theorem advisory_table (power_factor reactive_power : R) :
  (power_factor < 0.95 -> 0 < reactive_power ->
   advisory_lines power_factor reactive_power = [LaggingLow])
  /\ (power_factor < 0.95 -> reactive_power < 0 ->
      advisory_lines power_factor reactive_power = [LeadingLow])
  /\ (power_factor < 0.95 -> reactive_power = 0 ->
      advisory_lines power_factor reactive_power = [])
  /\ (0.98 < power_factor ->
      advisory_lines power_factor reactive_power = [HighPF])
  /\ (0.95 <= power_factor <= 0.98 ->
      advisory_lines power_factor reactive_power = [Stable])
  /\ advisory_lines 0.98 reactive_power = [Stable]
  /\ (length (advisory_lines power_factor reactive_power) <= 1)%nat.
Proof.
  unfold advisory_lines.
  repeat split; intros; case_compare;
    try reflexivity; try lra; simpl; lia.
Qed.

(** ** The session *)

Import PowerSystemSimulator.

(** [update_simulation] returns in every state; this is the state it
    returns, in terms of the sample computed from the three dial values. *)
Lemma update_simulation_returns (self : t) :
  exists current power_factor angle real_power apparent_power reactive_power,
    calculate_power_factor (voltage self)
      (RotaryDial.value (real_impedance_dial self))
      (RotaryDial.value (imag_impedance_dial self))
      (RotaryDial.value (excitation_dial self))
    = inr (current, power_factor, angle, real_power, apparent_power, reactive_power)
    /\ update_simulation self
       = inr (mk (voltage self)
                 (RotaryDial.value (real_impedance_dial self))
                 (RotaryDial.value (imag_impedance_dial self))
                 (RotaryDial.value (excitation_dial self))
                 (power_factor_history self ++ [power_factor])
                 (dynamic_mode self)
                 (real_impedance_dial self) (imag_impedance_dial self)
                 (excitation_dial self)
                 (Readings (voltage self) real_power apparent_power reactive_power
                           power_factor angle current
                  :: map Message (advisory_lines power_factor reactive_power))
                 [(voltage self, 0);
                  (voltage self * cos (math_radians angle),
                   voltage self * sin (math_radians angle))]
                 (power_factor_history self ++ [power_factor])
                 (scheduled self)).
Proof.
  do 6 eexists. split; [apply calculate_power_factor_returns | ].
  unfold update_simulation. cbn [voltage impedance_real impedance_imag excitation_current].
  rewrite calculate_power_factor_returns. reflexivity.
Qed.

(** A shorter form: the history gains the power factor of the sample, the
    parameters become the dial values, the dials, the mode and the queue of
    callbacks stay, and the plot shows the new history. *)
Lemma update_simulation_effect (self : t) :
  exists sample self',
    calculate_power_factor (voltage self)
      (RotaryDial.value (real_impedance_dial self))
      (RotaryDial.value (imag_impedance_dial self))
      (RotaryDial.value (excitation_dial self)) = inr sample
    /\ update_simulation self = inr self'
    /\ power_factor_history self'
       = power_factor_history self ++ [sample_power_factor sample]
    /\ ax_pf self' = power_factor_history self'
    /\ impedance_real self' = RotaryDial.value (real_impedance_dial self)
    /\ impedance_imag self' = RotaryDial.value (imag_impedance_dial self)
    /\ excitation_current self' = RotaryDial.value (excitation_dial self)
    /\ (forall d, get_dial self' d = get_dial self d)
    /\ dynamic_mode self' = dynamic_mode self
    /\ scheduled self' = scheduled self
    /\ voltage self' = voltage self.
Proof.
  destruct (update_simulation_returns self)
    as (c & pf & a & rp & ap & q & Hs & Hu).
  exists (c, pf, a, rp, ap, q). eexists.
  split; [exact Hs | ]. split; [exact Hu | ].
  cbn. repeat split.
Qed.

Lemma sample_power_factor_range (v r x e : R) (sample : R * R * R * R * R * R) :
  calculate_power_factor v r x e = inr sample ->
  0 <= sample_power_factor sample <= 1.
Proof.
  rewrite calculate_power_factor_returns. intros H.
  injection H as <-. cbn. apply clamp_range.
Qed.

(** *** The timer callback *)

Lemma random_uniform_range (a b u : R) :
  a <= b -> 0 <= u < 1 -> a <= random_uniform a b u <= b.
Proof. intros Hab Hu. unfold random_uniform. nra. Qed.

(** With the mode on, [simulate_dynamic_load] scales the two impedance
    dials, runs [update_simulation] and schedules one more callback. *)
Lemma simulate_dynamic_load_on (self : t) (u1 u2 : R) :
  dynamic_mode self = true ->
  exists sample self',
    simulate_dynamic_load self u1 u2 = inr self'
    /\ RotaryDial.value (real_impedance_dial self')
       = RotaryDial.value (real_impedance_dial self) * random_uniform 0.95 1.05 u1
    /\ RotaryDial.value (imag_impedance_dial self')
       = RotaryDial.value (imag_impedance_dial self) * random_uniform 0.95 1.05 u2
    /\ excitation_dial self' = excitation_dial self
    /\ calculate_power_factor (voltage self)
         (RotaryDial.value (real_impedance_dial self'))
         (RotaryDial.value (imag_impedance_dial self'))
         (RotaryDial.value (excitation_dial self')) = inr sample
    /\ impedance_real self' = RotaryDial.value (real_impedance_dial self')
    /\ impedance_imag self' = RotaryDial.value (imag_impedance_dial self')
    /\ power_factor_history self'
       = power_factor_history self ++ [sample_power_factor sample]
    /\ ax_pf self' = power_factor_history self'
    /\ scheduled self' = S (scheduled self)
    /\ dynamic_mode self' = true
    /\ real_impedance_dial self'
       = RotaryDial.set_value (real_impedance_dial self)
           (RotaryDial.value (real_impedance_dial self) * random_uniform 0.95 1.05 u1)
    /\ imag_impedance_dial self'
       = RotaryDial.set_value (imag_impedance_dial self)
           (RotaryDial.value (imag_impedance_dial self) * random_uniform 0.95 1.05 u2)
    /\ excitation_current self' = RotaryDial.value (excitation_dial self).
Proof.
  intros Hon. unfold simulate_dynamic_load. rewrite Hon.
  match goal with
  | |- context [update_simulation ?s] =>
      destruct (update_simulation_returns s)
        as (c & pf & a & rp & ap & q & Hs & Hu); rewrite Hu
  end.
  cbn in Hs. cbn.
  exists (c, pf, a, rp, ap, q). eexists.
  split; [reflexivity | ].
  cbn. rewrite Hon. repeat split. exact Hs.
Qed.

(** With the mode off it does nothing: in particular it schedules nothing. *)
Lemma simulate_dynamic_load_off (self : t) (u1 u2 : R) :
  dynamic_mode self = false -> simulate_dynamic_load self u1 u2 = inr self.
Proof. intros Hoff. unfold simulate_dynamic_load. now rewrite Hoff. Qed.

(** *** The history *)

Lemma handle_extends_history (self : t) (e : event) (self' : t) :
  handle self e = inr self' ->
  exists l, power_factor_history self' = power_factor_history self ++ l.
Proof.
  destruct e as [d x y | | u1 u2 | u1 u2]; cbn [handle].
  - destruct (RotaryDial.on_drag (get_dial self d) x y) as [err | dial];
      cbn [bind]; [discriminate | ].
    destruct (update_simulation_effect (set_dial self d dial))
      as (sample & s1 & _ & Hu & Hh & _).
    rewrite Hu. intros H. injection H as <-.
    exists [sample_power_factor sample]. exact Hh.
  - intros H. injection H as <-. exists []. cbn. now rewrite app_nil_r.
  - unfold set_dynamic_mode.
    destruct (simulate_dynamic_load_on (set_dynamic_mode_flag self true) u1 u2 eq_refl)
      as (sample & s1 & Hl & _ & _ & _ & _ & _ & _ & Hh & _).
    rewrite Hl. intros H. injection H as <-.
    exists [sample_power_factor sample]. exact Hh.
  - destruct (scheduled self) as [ | n] eqn:Hn.
    + intros H. injection H as <-. exists []. now rewrite app_nil_r.
    + destruct (dynamic_mode self) eqn:Hm.
      * destruct (simulate_dynamic_load_on (set_scheduled self n) u1 u2 Hm)
          as (sample & s1 & Hl & _ & _ & _ & _ & _ & _ & Hh & _).
        rewrite Hl. intros H. injection H as <-.
        exists [sample_power_factor sample]. exact Hh.
      * rewrite simulate_dynamic_load_off by exact Hm.
        intros H. injection H as <-. exists []. cbn. now rewrite app_nil_r.
Qed.

Lemma run_extends_history (es : list event) (self self' : t) :
  run self es = inr self' ->
  exists l, power_factor_history self' = power_factor_history self ++ l.
Proof.
  revert self. induction es as [ | e es IH]; intros self; cbn [run].
  - intros H. injection H as <-. exists []. now rewrite app_nil_r.
  - destruct (handle self e) as [err | s1] eqn:He; cbn [bind]; [discriminate | ].
    intros Hr.
    destruct (handle_extends_history _ _ _ He) as [l1 H1].
    destruct (IH _ Hr) as [l2 H2].
    exists (l1 ++ l2). now rewrite H2, H1, app_assoc.
Qed.

(** C7.  Every call of [update_simulation] returns and appends exactly
    one value to [power_factor_history], the clamped power factor of the
    sample just computed from the dial values, behind the elements already
    there.  No handler, and no run of handlers, removes or reorders what the
    history holds: the old history is a prefix of the new one.
    [calculate_power_factor] takes four numbers and no session, so it cannot
    touch the history. *)
Theorem history_append_only :
  (forall self : t, exists sample self',
      calculate_power_factor (voltage self)
        (RotaryDial.value (real_impedance_dial self))
        (RotaryDial.value (imag_impedance_dial self))
        (RotaryDial.value (excitation_dial self)) = inr sample
      /\ update_simulation self = inr self'
      /\ power_factor_history self'
         = power_factor_history self ++ [sample_power_factor sample]
      /\ 0 <= sample_power_factor sample <= 1)
  /\ (forall (self : t) (e : event) (self' : t),
        handle self e = inr self' ->
        exists l, power_factor_history self' = power_factor_history self ++ l)
  /\ (forall (self : t) (es : list event) (self' : t),
        run self es = inr self' ->
        exists l, power_factor_history self' = power_factor_history self ++ l).
Proof.
  split; [ | split].
  - intros self.
    destruct (update_simulation_effect self) as (sample & s1 & Hs & Hu & Hh & _).
    exists sample, s1. repeat split; try assumption;
      apply (sample_power_factor_range _ _ _ _ _ Hs).
  - exact handle_extends_history.
  - intros self es self'. apply run_extends_history.
Qed.

(** *** The chain of callbacks *)

Lemma handle_keeps_mode_off (self : t) (e : event) (self' : t) :
  dynamic_mode self = false ->
  keeps_mode_off e ->
  handle self e = inr self' ->
  dynamic_mode self' = false /\ runs_cycle self e = false.
Proof.
  intros Hoff Hk.
  destruct e as [d x y | | u1 u2 | u1 u2]; cbn [handle runs_cycle].
  - destruct (RotaryDial.on_drag (get_dial self d) x y) as [err | dial];
      cbn [bind]; [discriminate | ].
    destruct (update_simulation_effect (set_dial self d dial))
      as (sample & s1 & _ & Hu & _ & _ & _ & _ & _ & _ & Hm & _).
    rewrite Hu. intros H. injection H as <-.
    rewrite Hm. cbn. now split.
  - intros H. injection H as <-. now split.
  - destruct Hk.
  - destruct (scheduled self) as [ | n].
    + intros H. injection H as <-. now split.
    + rewrite simulate_dynamic_load_off by exact Hoff.
      intros H. injection H as <-. now split.
Qed.

(** Once the mode is off, and as long as "Dynamic Mode" is not clicked
    again, no event runs a cycle. *)
Lemma cycles_mode_off (es : list event) (self : t) :
  dynamic_mode self = false ->
  Forall keeps_mode_off es ->
  cycles self es = O.
Proof.
  revert self. induction es as [ | e es IH]; intros self Hoff Hes; cbn [cycles].
  - reflexivity.
  - inversion Hes as [ | e' es' Hk Hes']; subst.
    destruct (handle self e) as [err | s1] eqn:He; [reflexivity | ].
    destruct (handle_keeps_mode_off _ _ _ Hoff Hk He) as [Hoff1 Hrc].
    rewrite Hrc, (IH s1 Hoff1 Hes'). reflexivity.
Qed.

(** C8.  A callback of the timer chain first tests [dynamic_mode].  With
    the mode on it multiplies the values of the two impedance dials by two
    separately drawn factors, each in [0.95, 1.05], recomputes, appends to
    the history, redraws the plot from it and schedules the next callback,
    so the firing of a callback leaves as many scheduled as before.  With
    the mode off the callback changes nothing and schedules nothing, so the
    firing leaves one callback fewer.  After [set_static_mode], whatever
    events follow short of a click on "Dynamic Mode", at most one more
    cycle is run. *)
Theorem timer_chain :
  (forall (self : t) (u1 u2 : R),
      dynamic_mode self = true -> 0 <= u1 < 1 -> 0 <= u2 < 1 ->
      exists f1 f2 sample self',
        f1 = random_uniform 0.95 1.05 u1 /\ 0.95 <= f1 <= 1.05
        /\ f2 = random_uniform 0.95 1.05 u2 /\ 0.95 <= f2 <= 1.05
        /\ simulate_dynamic_load self u1 u2 = inr self'
        /\ RotaryDial.value (real_impedance_dial self')
           = RotaryDial.value (real_impedance_dial self) * f1
        /\ RotaryDial.value (imag_impedance_dial self')
           = RotaryDial.value (imag_impedance_dial self) * f2
        /\ calculate_power_factor (voltage self)
             (RotaryDial.value (real_impedance_dial self) * f1)
             (RotaryDial.value (imag_impedance_dial self) * f2)
             (RotaryDial.value (excitation_dial self)) = inr sample
        /\ power_factor_history self'
           = power_factor_history self ++ [sample_power_factor sample]
        /\ ax_pf self' = power_factor_history self'
        /\ scheduled self' = S (scheduled self)
        /\ dynamic_mode self' = true)
  /\ (forall (self : t) (u1 u2 : R),
        dynamic_mode self = false ->
        simulate_dynamic_load self u1 u2 = inr self)
  /\ (forall (self : t) (n : nat) (u1 u2 : R),
        scheduled self = S n ->
        exists self',
          handle self (AfterFires u1 u2) = inr self'
          /\ scheduled self' = (if dynamic_mode self then S n else n)
          /\ (dynamic_mode self = false -> self' = set_scheduled self n))
  /\ (forall (self : t) (es : list event),
        Forall keeps_mode_off es ->
        (cycles (set_static_mode self) es <= 1)%nat).
Proof.
  split; [ | split; [ | split]].
  - intros self u1 u2 Hon Hu1 Hu2.
    destruct (simulate_dynamic_load_on self u1 u2 Hon)
      as (sample & s1 & Hl & Hr & Hi & He & Hs & _ & _ & Hh & Hp & Hq & Hm & _).
    exists (random_uniform 0.95 1.05 u1), (random_uniform 0.95 1.05 u2), sample, s1.
    rewrite Hr, Hi, He in Hs.
    repeat split; try assumption;
      try (apply random_uniform_range; [lra | assumption]).
  - exact simulate_dynamic_load_off.
  - intros self n u1 u2 Hn. cbn [handle]. rewrite Hn.
    destruct (dynamic_mode self) eqn:Hm.
    + destruct (simulate_dynamic_load_on (set_scheduled self n) u1 u2 Hm)
        as (sample & s1 & Hl & _ & _ & _ & _ & _ & _ & _ & _ & Hq & _).
      exists s1. split; [exact Hl | ]. split; [exact Hq | discriminate].
    + exists (set_scheduled self n).
      split; [now apply simulate_dynamic_load_off | ].
      split; reflexivity.
  - intros self es Hes.
    rewrite (cycles_mode_off es (set_static_mode self) eq_refl Hes). lia.
Qed.

(** *** The ranges of the dials *)

Lemma math_floor_IZR (z : Z) : math_floor (IZR z) = z.
Proof.
  unfold math_floor. symmetry. apply Int_part_spec. lra.
Qed.

Lemma py_round_IZR (z : Z) : py_round (IZR z) = z.
Proof.
  unfold py_round. rewrite math_floor_IZR.
  destruct (Rlt_dec (IZR z - IZR z) (1 / 2)) as [_ | H]; [reflexivity | lra].
Qed.

Lemma py_mod_nonzero (x y : R) :
  y <> 0 -> py_mod x y = inr (x - y * IZR (math_floor (x / y))).
Proof.
  intros Hy. unfold py_mod.
  destruct (Req_dec_T y 0) as [E | _]; [contradiction | reflexivity].
Qed.

(** The clamp of line 65 keeps the value of a dial between its bounds. *)
Lemma dial_clamp_range (lo hi v : R) :
  lo <= hi -> lo <= py_max lo (py_min hi v) <= hi.
Proof.
  intros Hb. unfold py_max, py_min. case_compare; lra.
Qed.

(** [on_drag] returns whenever the step of the dial is not 0; it leaves the
    bounds and the step as they are, and the value it stores is clamped. *)
Lemma on_drag_returns (self : RotaryDial.t) (x y : Z) :
  RotaryDial.step self <> 0 ->
  exists a v,
    RotaryDial.on_drag self x y
    = inr (RotaryDial.mk (RotaryDial.min_val self) (RotaryDial.max_val self)
             (py_max (RotaryDial.min_val self) (py_min (RotaryDial.max_val self) v))
             (RotaryDial.step self) a).
Proof.
  intros Hstep. unfold RotaryDial.on_drag.
  rewrite py_mod_nonzero by lra. rewrite bind_inr.
  cbn [RotaryDial.set_angle RotaryDial.angle RotaryDial.min_val
       RotaryDial.max_val RotaryDial.step RotaryDial.value].
  rewrite truediv_nonzero by lra. rewrite bind_inr.
  rewrite truediv_nonzero by exact Hstep. rewrite bind_inr.
  cbn. do 2 eexists. reflexivity.
Qed.

Lemma on_drag_in_range (self self' : RotaryDial.t) (x y : Z) :
  RotaryDial.min_val self <= RotaryDial.max_val self ->
  RotaryDial.on_drag self x y = inr self' ->
  RotaryDial.min_val self' <= RotaryDial.value self' <= RotaryDial.max_val self'.
Proof.
  intros Hb Hd.
  destruct (Req_dec_T (RotaryDial.step self) 0) as [E | Hstep].
  - exfalso. revert Hd. unfold RotaryDial.on_drag.
    rewrite py_mod_nonzero by lra. rewrite bind_inr.
    cbn [RotaryDial.set_angle RotaryDial.angle RotaryDial.min_val
         RotaryDial.max_val RotaryDial.step RotaryDial.value].
    rewrite truediv_nonzero by lra. rewrite bind_inr.
    unfold truediv at 1.
    destruct (Req_dec_T (RotaryDial.step self) 0) as [_ | N];
      [discriminate | contradiction].
  - destruct (on_drag_returns self x y Hstep) as (a & v & Hr).
    rewrite Hr in Hd. injection Hd as <-. cbn.
    now apply dial_clamp_range.
Qed.

(** A drag to the top of a dial, the point (100, 0) of its canvas, turns
    the pointer to 0 degrees. *)
Lemma drag_to_top_degrees :
  py_mod (math_degrees (math_atan2 (IZR (0 - 100)) (IZR (100 - 100))) + 450) 360
  = inr 0.
Proof.
  assert (Ha : math_atan2 (IZR (0 - 100)) (IZR (100 - 100)) = - (PI / 2)).
  { unfold math_atan2. cbn [Z.sub Z.add Z.opp Z.pos_sub Pos.compare Z.succ_double
                           Z.pred_double Z.double Pos.pred_double].
    replace (IZR (100 - 100)) with 0 by (simpl; lra).
    replace (IZR (0 - 100)) with (-100) by (simpl; lra).
    destruct (Rlt_dec 0 0) as [H | _]; [lra | ].
    destruct (Rlt_dec 0 (-100)) as [H | _]; [lra | ].
    destruct (Rlt_dec (-100) 0) as [_ | H]; [reflexivity | lra]. }
  rewrite Ha.
  assert (Hd : math_degrees (- (PI / 2)) + 450 = 360).
  { unfold math_degrees. pose proof PI_RGT_0. field. lra. }
  rewrite Hd, py_mod_nonzero by lra.
  replace (360 / 360) with (IZR 1) by lra.
  rewrite math_floor_IZR. f_equal. lra.
Qed.

(** On a dial with bounds 1 and 20 and step 0.5 that drag sets the value
    to 1, the lower bound. *)
Lemma drag_to_top_value (self : RotaryDial.t) :
  RotaryDial.min_val self = 1 ->
  RotaryDial.max_val self = 20 ->
  RotaryDial.step self = 0.5 ->
  RotaryDial.on_drag self 100 0 = inr (RotaryDial.mk 1 20 1 0.5 0).
Proof.
  intros Hmin Hmax Hstep.
  destruct self as [lo hi v st a]. cbn in Hmin, Hmax, Hstep. subst lo hi st.
  unfold RotaryDial.on_drag.
  rewrite drag_to_top_degrees, bind_inr.
  cbv zeta. unfold RotaryDial.set_angle, RotaryDial.set_value.
  cbn [RotaryDial.angle RotaryDial.min_val RotaryDial.max_val
       RotaryDial.step RotaryDial.value].
  rewrite truediv_nonzero by lra. rewrite bind_inr.
  rewrite truediv_nonzero by lra. rewrite bind_inr.
  replace ((1 + (20 - 1) * (0 / 360)) / 0.5) with (IZR 2) by lra.
  rewrite py_round_IZR.
  replace (2 * 0.5) with 1 by lra.
  unfold py_max, py_min.
  destruct (Rlt_dec 1 20) as [_ | H]; [ | lra].
  destruct (Rlt_dec 1 1) as [H | _]; [lra | ].
  reflexivity.
Qed.

(** *** Reachable states *)

Lemma init_returns :
  init
  = inr (mk 230 5 5 0 [] false
           (RotaryDial.mk 1 20 5 0.5 ((5 - 1) / (20 - 1) * 360))
           (RotaryDial.mk 1 20 5 0.5 ((5 - 1) / (20 - 1) * 360))
           (RotaryDial.mk 0 10 0 0.5 ((0 - 0) / (10 - 0) * 360))
           [] [] [] 0).
Proof.
  unfold init, RotaryDial.init.
  rewrite !truediv_nonzero by lra. reflexivity.
Qed.

(** The configuration of the dials never changes, and the excitation
    current never leaves [0, 10]: its dial is only ever set by [on_drag]. *)
Lemma handle_keeps_configuration (self : t) (e : event) (self' : t) :
  dials_configured self /\ excitation_in_range self ->
  handle self e = inr self' ->
  dials_configured self' /\ excitation_in_range self'.
Proof.
  intros [Hc Hx] He.
  destruct e as [d x y | | u1 u2 | u1 u2]; cbn [handle] in He.
  - assert (Hstep : RotaryDial.step (get_dial self d) <> 0).
    { destruct Hc as (? & ? & S1 & ? & ? & S2 & ? & ? & S3).
      destruct d; cbn; lra. }
    destruct (on_drag_returns (get_dial self d) x y Hstep) as (a & v & Hd).
    rewrite Hd in He. cbn [bind] in He.
    destruct (update_simulation_effect
                (set_dial self d
                   (RotaryDial.mk (RotaryDial.min_val (get_dial self d))
                      (RotaryDial.max_val (get_dial self d))
                      (py_max (RotaryDial.min_val (get_dial self d))
                         (py_min (RotaryDial.max_val (get_dial self d)) v))
                      (RotaryDial.step (get_dial self d)) a)))
      as (sample & s1 & _ & Hu & _ & _ & _ & _ & Hcur & Hdials & _).
    rewrite Hu in He. injection He as <-.
    pose proof (Hdials RealImpedance) as Hr.
    pose proof (Hdials ImagImpedance) as Hi.
    pose proof (Hdials Excitation) as Hex.
    cbn [get_dial] in Hr, Hi, Hex.
    unfold dials_configured, excitation_in_range.
    rewrite Hcur, Hr, Hi, Hex.
    destruct Hc as (A1 & A2 & A3 & B1 & B2 & B3 & C1 & C2 & C3).
    destruct Hx as [Hx1 Hx2].
    assert (Hclamp : 0 <= py_max 0 (py_min 10 v) <= 10)
      by (apply dial_clamp_range; lra).
    destruct d; cbn; rewrite ?C1, ?C2; repeat split; try assumption; lra.
  - injection He as <-. split; assumption.
  - unfold set_dynamic_mode in He.
    destruct (simulate_dynamic_load_on (set_dynamic_mode_flag self true) u1 u2 eq_refl)
      as (sample & s1 & Hl & _ & _ & Hex & _ & _ & _ & _ & _ & _ & _ & Hr & Hi & Hcur).
    rewrite Hl in He. injection He as <-.
    unfold dials_configured, excitation_in_range.
    rewrite Hr, Hi, Hex, Hcur. cbn.
    destruct Hx as [Hx1 Hx2]. repeat split; try apply Hc; lra.
  - destruct (scheduled self) as [ | n].
    + injection He as <-. split; assumption.
    + destruct (dynamic_mode self) eqn:Hm.
      * destruct (simulate_dynamic_load_on (set_scheduled self n) u1 u2 Hm)
          as (sample & s1 & Hl & _ & _ & Hex & _ & _ & _ & _ & _ & _ & _ & Hr & Hi & Hcur).
        rewrite Hl in He. injection He as <-.
        unfold dials_configured, excitation_in_range.
        rewrite Hr, Hi, Hex, Hcur. cbn.
        destruct Hx as [Hx1 Hx2]. repeat split; try apply Hc; lra.
      * rewrite simulate_dynamic_load_off in He by exact Hm.
        injection He as <-. split; assumption.
Qed.

Lemma reachable_configuration (self : t) :
  reachable self -> dials_configured self /\ excitation_in_range self.
Proof.
  induction 1 as [s Hi | s e s' _ IH _ He].
  - rewrite init_returns in Hi. injection Hi as <-.
    unfold dials_configured, excitation_in_range. cbn.
    repeat split; lra.
  - exact (handle_keeps_configuration _ _ _ IH He).
Qed.

(** In a reachable state every handler returns: no event raises. *)
Lemma reachable_handle_returns (self : t) (e : event) :
  reachable self -> exists self', handle self e = inr self'.
Proof.
  intros Hr. destruct (reachable_configuration _ Hr) as [Hc _].
  destruct e as [d x y | | u1 u2 | u1 u2]; cbn [handle].
  - assert (Hstep : RotaryDial.step (get_dial self d) <> 0).
    { destruct Hc as (? & ? & S1 & ? & ? & S2 & ? & ? & S3).
      destruct d; cbn; lra. }
    destruct (on_drag_returns (get_dial self d) x y Hstep) as (a & v & Hd).
    rewrite Hd. cbn [bind].
    match goal with
    | |- context [update_simulation ?s] =>
        destruct (update_simulation_effect s) as (_ & s1 & _ & Hu & _)
    end.
    exists s1. exact Hu.
  - eexists. reflexivity.
  - unfold set_dynamic_mode.
    destruct (simulate_dynamic_load_on (set_dynamic_mode_flag self true) u1 u2 eq_refl)
      as (_ & s1 & Hl & _).
    exists s1. exact Hl.
  - destruct (scheduled self) as [ | n]; [eexists; reflexivity | ].
    destruct (dynamic_mode self) eqn:Hm.
    + destruct (simulate_dynamic_load_on (set_scheduled self n) u1 u2 Hm)
        as (_ & s1 & Hl & _).
      exists s1. exact Hl.
    + exists (set_scheduled self n). now apply simulate_dynamic_load_off.
Qed.

(** A drag leaves the dragged dial, and the parameter read from it,
    within the bounds of the dial. *)
Lemma drag_in_range (self : t) (d : dial_id) (x y : Z) (self' : t) :
  reachable self ->
  handle self (B1Motion d x y) = inr self' ->
  RotaryDial.min_val (get_dial self' d)
  <= RotaryDial.value (get_dial self' d)
  <= RotaryDial.max_val (get_dial self' d)
  /\ match d with
     | RealImpedance => impedance_real self'
     | ImagImpedance => impedance_imag self'
     | Excitation => excitation_current self'
     end = RotaryDial.value (get_dial self' d).
Proof.
  intros Hr He. destruct (reachable_configuration _ Hr) as [Hc _].
  cbn [handle] in He.
  destruct (RotaryDial.on_drag (get_dial self d) x y) as [err | dial] eqn:Hd;
    cbn [bind] in He; [discriminate | ].
  assert (Hb : RotaryDial.min_val (get_dial self d)
               <= RotaryDial.max_val (get_dial self d)).
  { destruct Hc as (A1 & A2 & _ & B1 & B2 & _ & C1 & C2 & _).
    destruct d; cbn; lra. }
  pose proof (on_drag_in_range _ _ _ _ Hb Hd) as Hrange.
  destruct (update_simulation_effect (set_dial self d dial))
    as (sample & s1 & _ & Hu & _ & _ & Hre & Him & Hex & Hdials & _).
  rewrite Hu in He. injection He as <-.
  rewrite (Hdials d).
  assert (Hg : get_dial (set_dial self d dial) d = dial) by (destruct d; reflexivity).
  rewrite Hg. split; [exact Hrange | ].
  destruct d; cbn in Hre, Him, Hex; assumption.
Qed.

(** C3.  The timer callback takes the real impedance out of [1, 20].
    Start the program, drag the pointer of the real-impedance dial to the top
    of its canvas (the dial clamps the value to 1, its lower bound), then
    click "Dynamic Mode" with draws 1/4 and 1/2: [simulate_dynamic_load]
    multiplies the value of the dial by 0.975 and stores nothing back
    through the clamp, so the reachable state has a real impedance of
    0.975, on the dial and in the session, below the lower bound 1 that the
    dial still carries. *)
Theorem dynamic_tick_leaves_dial_range :
  exists s0 s1 s2,
    init = inr s0
    /\ handle s0 (B1Motion RealImpedance 100 0) = inr s1
    /\ RotaryDial.value (real_impedance_dial s1) = 1
    /\ enabled s1 (DynamicModeButton (1 / 4) (1 / 2))
    /\ handle s1 (DynamicModeButton (1 / 4) (1 / 2)) = inr s2
    /\ reachable s2
    /\ RotaryDial.min_val (real_impedance_dial s2) = 1
    /\ RotaryDial.value (real_impedance_dial s2) = 0.975
    /\ impedance_real s2 = 0.975
    /\ ~ (1 <= impedance_real s2 <= 20).
Proof.
  pose (s0 := mk 230 5 5 0 [] false
                (RotaryDial.mk 1 20 5 0.5 ((5 - 1) / (20 - 1) * 360))
                (RotaryDial.mk 1 20 5 0.5 ((5 - 1) / (20 - 1) * 360))
                (RotaryDial.mk 0 10 0 0.5 ((0 - 0) / (10 - 0) * 360))
                [] [] [] 0).
  assert (Hinit : init = inr s0) by exact init_returns.
  destruct (update_simulation_effect
              (set_dial s0 RealImpedance (RotaryDial.mk 1 20 1 0.5 0)))
    as (sample1 & s1 & _ & Hu1 & _ & _ & _ & _ & _ & Hd1 & _).
  destruct (simulate_dynamic_load_on (set_dynamic_mode_flag s1 true)
              (1 / 4) (1 / 2) eq_refl)
    as (sample2 & s2 & Hl & Hv & _ & _ & _ & Hre & _ & _ & _ & _ & _ & Hr & _).
  exists s0, s1, s2.
  assert (H0 : handle s0 (B1Motion RealImpedance 100 0) = inr s1).
  { cbn [handle get_dial].
    rewrite (drag_to_top_value (real_impedance_dial s0) eq_refl eq_refl eq_refl).
    exact Hu1. }
  assert (Hval1 : RotaryDial.value (real_impedance_dial s1) = 1).
  { pose proof (Hd1 RealImpedance) as H. cbn in H. now rewrite H. }
  assert (Hmin1 : RotaryDial.min_val (real_impedance_dial s1) = 1).
  { pose proof (Hd1 RealImpedance) as H. cbn in H. now rewrite H. }
  assert (Hen : enabled s1 (DynamicModeButton (1 / 4) (1 / 2)))
    by (cbn; lra).
  assert (Hval2 : RotaryDial.value (real_impedance_dial s2) = 0.975).
  { rewrite Hv. cbn. rewrite Hval1. unfold random_uniform. lra. }
  split; [exact Hinit | ].
  split; [exact H0 | ].
  split; [exact Hval1 | ].
  split; [exact Hen | ].
  split; [exact Hl | ].
  split.
  { apply (reachable_handle s1 (DynamicModeButton (1 / 4) (1 / 2)));
      [ | exact Hen | exact Hl].
    apply (reachable_handle s0 (B1Motion RealImpedance 100 0) s1);
      [apply reachable_init; exact Hinit | exact I | exact H0]. }
  split; [rewrite Hr; cbn; exact Hmin1 | ].
  split; [exact Hval2 | ].
  split; [now rewrite Hre | ].
  rewrite Hre, Hval2. lra.
Qed.


(** * Further properties of the code *)

(** ** The angle of a point and its coordinates *)

Lemma hypot_sqr (x y : R) :
  sqrt (x ^ 2 + y ^ 2) * sqrt (x ^ 2 + y ^ 2) = x ^ 2 + y ^ 2.
Proof. apply sqrt_sqrt. nra. Qed.

Lemma hypot_nonneg (x y : R) : 0 <= sqrt (x ^ 2 + y ^ 2).
Proof. apply sqrt_pos. Qed.

Lemma hypot_pos (x y : R) : x <> 0 \/ y <> 0 -> 0 < sqrt (x ^ 2 + y ^ 2).
Proof. intros H. apply sqrt_lt_R0. destruct H; nra. Qed.

Lemma hypot_zero (x y : R) : sqrt (x ^ 2 + y ^ 2) = 0 -> x = 0 /\ y = 0.
Proof.
  intros H. apply sqrt_eq_0 in H; [ | nra]. split; nra.
Qed.

(** For [t = y / x] the square root in [cos_atan] and [sin_atan] is the
    distance of [(x, y)] from the origin over [|x|]. *)
Lemma sqrt_one_plus_slope (x y : R) :
  x <> 0 ->
  sqrt (1 + (y / x)²) = sqrt (x ^ 2 + y ^ 2) / Rabs x.
Proof.
  intros Hx.
  assert (Ha : 0 < Rabs x) by now apply Rabs_pos_lt.
  assert (Haa : Rabs x * Rabs x = x * x).
  { unfold Rabs. destruct (Rcase_abs x); lra. }
  pose proof (hypot_sqr x y) as Hm.
  pose proof (hypot_nonneg x y) as Hm0.
  set (m := sqrt (x ^ 2 + y ^ 2)) in *.
  apply sqrt_lem_1.
  - unfold Rsqr. nra.
  - apply Rmult_le_pos; [exact Hm0 | left; now apply Rinv_0_lt_compat].
  - unfold Rsqr.
    replace (m / Rabs x * (m / Rabs x)) with (m * m / (Rabs x * Rabs x))
      by (field; lra).
    rewrite Hm, Haa. field. exact Hx.
Qed.

Lemma cos_atan_slope (x y : R) :
  x <> 0 -> cos (atan (y / x)) = Rabs x / sqrt (x ^ 2 + y ^ 2).
Proof.
  intros Hx. rewrite cos_atan, sqrt_one_plus_slope by exact Hx.
  assert (Ha : 0 < Rabs x) by now apply Rabs_pos_lt.
  assert (Hm : 0 < sqrt (x ^ 2 + y ^ 2)) by (apply hypot_pos; now left).
  field. split; lra.
Qed.

Lemma sin_atan_slope (x y : R) :
  x <> 0 -> sin (atan (y / x)) = y / x * Rabs x / sqrt (x ^ 2 + y ^ 2).
Proof.
  intros Hx. rewrite sin_atan, sqrt_one_plus_slope by exact Hx.
  assert (Ha : 0 < Rabs x) by now apply Rabs_pos_lt.
  assert (Hm : 0 < sqrt (x ^ 2 + y ^ 2)) by (apply hypot_pos; now left).
  field. repeat split; lra.
Qed.

Lemma hypot_vertical (y : R) : sqrt (0 ^ 2 + y ^ 2) = Rabs y.
Proof.
  replace (0 ^ 2 + y ^ 2) with (y²) by (unfold Rsqr; lra).
  apply sqrt_Rsqr_abs.
Qed.

(** Away from the origin, [math.atan2(y, x)] is an angle whose cosine and
    sine are the coordinates of [(x, y)] over its distance from the
    origin. *)
Lemma cos_math_atan2 (y x : R) :
  x <> 0 \/ y <> 0 ->
  cos (math_atan2 y x) = x / sqrt (x ^ 2 + y ^ 2).
Proof.
  intros Hxy. unfold math_atan2.
  destruct (Rlt_dec 0 x) as [Hpos | Hnpos].
  - rewrite cos_atan_slope, Rabs_right by lra. reflexivity.
  - destruct (Rlt_dec x 0) as [Hneg | Hnneg].
    + assert (Hm : 0 < sqrt (x ^ 2 + y ^ 2)) by (apply hypot_pos; left; lra).
      destruct (Rlt_dec y 0) as [Hy | Hy].
      * unfold Rminus. rewrite cos_plus, cos_neg, sin_neg, cos_PI, sin_PI.
        rewrite cos_atan_slope, Rabs_left by lra. field. lra.
      * rewrite neg_cos, cos_atan_slope, Rabs_left by lra. field. lra.
    + assert (Hx : x = 0) by lra. subst x.
      assert (Hy0 : y <> 0) by (destruct Hxy; [lra | assumption]).
      unfold Rdiv at 3. rewrite Rmult_0_l.
      destruct (Rlt_dec 0 y) as [Hy | Hy].
      * apply cos_PI2.
      * destruct (Rlt_dec y 0) as [Hy' | Hy']; [ | lra].
        rewrite cos_neg. apply cos_PI2.
Qed.

Lemma sin_math_atan2 (y x : R) :
  x <> 0 \/ y <> 0 ->
  sin (math_atan2 y x) = y / sqrt (x ^ 2 + y ^ 2).
Proof.
  intros Hxy. unfold math_atan2.
  destruct (Rlt_dec 0 x) as [Hpos | Hnpos].
  - assert (Hm : 0 < sqrt (x ^ 2 + y ^ 2)) by (apply hypot_pos; left; lra).
    rewrite sin_atan_slope, Rabs_right by lra. field. split; lra.
  - destruct (Rlt_dec x 0) as [Hneg | Hnneg].
    + assert (Hm : 0 < sqrt (x ^ 2 + y ^ 2)) by (apply hypot_pos; left; lra).
      destruct (Rlt_dec y 0) as [Hy | Hy].
      * unfold Rminus. rewrite sin_plus, cos_neg, sin_neg, cos_PI, sin_PI.
        rewrite sin_atan_slope, Rabs_left by lra. field. split; lra.
      * rewrite neg_sin, sin_atan_slope, Rabs_left by lra. field. split; lra.
    + assert (Hx : x = 0) by lra. subst x.
      assert (Hy0 : y <> 0) by (destruct Hxy; [lra | assumption]).
      rewrite hypot_vertical.
      destruct (Rlt_dec 0 y) as [Hy | Hy].
      * rewrite sin_PI2, Rabs_right by lra. field. lra.
      * destruct (Rlt_dec y 0) as [Hy' | Hy']; [ | lra].
        rewrite sin_neg, sin_PI2, Rabs_left by lra. field. lra.
Qed.

(** The angle lies in (-pi, pi]. *)
Lemma math_atan2_range (y x : R) : - PI < math_atan2 y x <= PI.
Proof.
  pose proof PI_RGT_0 as HPI.
  pose proof (atan_bound (y / x)) as Hb.
  unfold math_atan2.
  destruct (Rlt_dec 0 x) as [Hpos | Hnpos]; [lra | ].
  destruct (Rlt_dec x 0) as [Hneg | Hnneg].
  - assert (Hi : 0 < / - x) by (apply Rinv_0_lt_compat; lra).
    destruct (Rlt_dec y 0) as [Hy | Hy].
    + assert (Ht : 0 < atan (y / x)).
      { apply atan_pos. replace (y / x) with (- y * / - x) by (field; lra).
        apply Rmult_lt_0_compat; lra. }
      lra.
    + assert (Ht : atan (y / x) <= 0).
      { destruct (Req_dec_T y 0) as [E | N].
        - subst y. unfold Rdiv. rewrite Rmult_0_l, atan_0. lra.
        - left. apply atan_neg.
          replace (y / x) with (- (y * / - x)) by (field; lra).
          assert (0 < y * / - x) by (apply Rmult_lt_0_compat; lra). lra. }
      lra.
  - destruct (Rlt_dec 0 y); [lra | ].
    destruct (Rlt_dec y 0); lra.
Qed.

(** ** The sample in closed form *)

(** Equality of two returned tuples, component by component. *)
Ltac sample_eq :=
  apply (f_equal (@inr exn (R * R * R * R * R * R)));
  repeat apply (f_equal2 (@pair _ _)).

Lemma magnitude_pos_iff (r x : R) :
  0 < sqrt (r ^ 2 + x ^ 2) <-> r <> 0 \/ x <> 0.
Proof.
  split.
  - intros Hm. destruct (Req_dec_T r 0) as [Hr | Hr]; [ | now left].
    destruct (Req_dec_T x 0) as [Hx | Hx]; [ | now right].
    subst r x. replace (0 ^ 2 + 0 ^ 2) with 0 in Hm by lra.
    rewrite sqrt_0 in Hm. lra.
  - apply hypot_pos.
Qed.

Lemma magnitude_bounds (r x : R) :
  Rabs r <= sqrt (r ^ 2 + x ^ 2) /\ Rabs x <= sqrt (r ^ 2 + x ^ 2).
Proof.
  pose proof (hypot_sqr r x) as Hm. pose proof (hypot_nonneg r x) as Hm0.
  set (m := sqrt (r ^ 2 + x ^ 2)) in *.
  unfold Rabs. destruct (Rcase_abs r), (Rcase_abs x); split; nra.
Qed.

(** With a voltage other than 0 and an impedance other than 0 no guard
    and no upper clamp is taken, and the sample is the textbook one:
    current [V / |Z|], power factor [max(0, R / |Z|)], real power
    [V^2 R / |Z|^2], apparent power [V^2 / |Z|], reactive power
    [V^2 X / |Z|^2]. *)
Lemma calculate_power_factor_closed (voltage impedance_real impedance_imag excitation_current : R) :
  let x := compensated_impedance_imag impedance_imag excitation_current in
  let m := sqrt (impedance_real ^ 2 + x ^ 2) in
  voltage <> 0 ->
  0 < m ->
  calculate_power_factor voltage impedance_real impedance_imag excitation_current
  = inr (voltage / m,
         Rmax 0 (impedance_real / m),
         math_degrees (math_atan2 x impedance_real),
         voltage * voltage * impedance_real / (m * m),
         voltage * voltage / m,
         voltage * voltage * x / (m * m)).
Proof.
  intros x m Hv Hm.
  rewrite calculate_power_factor_returns. cbv zeta.
  fold x. fold m.
  assert (Hxy : impedance_real <> 0 \/ x <> 0) by now apply magnitude_pos_iff.
  rewrite radians_degrees, cos_math_atan2, sin_math_atan2 by exact Hxy.
  fold m.
  destruct (Rlt_dec 0 m) as [_ | H]; [ | contradiction].
  assert (Hs : 0 < voltage * (voltage / m)).
  { replace (voltage * (voltage / m)) with (voltage * voltage * / m) by (field; lra).
    apply Rmult_lt_0_compat; [nra | now apply Rinv_0_lt_compat]. }
  destruct (Rlt_dec 0 (voltage * (voltage / m))) as [_ | H]; [ | contradiction].
  assert (Hq : voltage * (voltage / m) * (impedance_real / m) / (voltage * (voltage / m))
               = impedance_real / m) by (field; split; lra).
  rewrite Hq.
  assert (Hle : impedance_real / m <= 1).
  { destruct (magnitude_bounds impedance_real x) as [Hb _]. fold m in Hb.
    apply (Rmult_le_reg_r m); [exact Hm | ].
    replace (impedance_real / m * m) with impedance_real by (field; lra).
    pose proof (Rle_abs impedance_real). lra. }
  sample_eq; try reflexivity; try (field; lra).
  rewrite <- py_max_spec. unfold py_min.
  destruct (Rlt_dec 1 (impedance_real / m)) as [H | _]; [lra | reflexivity].
Qed.

(** Without voltage, or without impedance, both guards are taken. *)
Lemma calculate_power_factor_no_voltage (impedance_real impedance_imag excitation_current : R) :
  calculate_power_factor 0 impedance_real impedance_imag excitation_current
  = inr (0, 0,
         math_degrees
           (math_atan2 (compensated_impedance_imag impedance_imag excitation_current)
                       impedance_real),
         0, 0, 0).
Proof.
  rewrite calculate_power_factor_returns. cbv zeta.
  set (m := sqrt _). set (a := math_radians _).
  assert (Hi : (if Rlt_dec 0 m then 0 / m else 0) = 0).
  { destruct (Rlt_dec 0 m); [unfold Rdiv; apply Rmult_0_l | reflexivity]. }
  rewrite Hi.
  replace (0 * 0 * cos a) with 0 by lra.
  replace (0 * 0 * sin a) with 0 by lra.
  replace (0 * 0) with 0 by lra.
  destruct (Rlt_dec 0 0) as [H | _]; [lra | ].
  sample_eq; try reflexivity.
  unfold py_max, py_min. case_compare; lra.
Qed.

Lemma calculate_power_factor_no_impedance (voltage excitation_current : R) :
  calculate_power_factor voltage 0 (2 * excitation_current) excitation_current
  = inr (0, 0, 0, 0, 0, 0).
Proof.
  rewrite calculate_power_factor_returns. cbv zeta.
  assert (Hx : compensated_impedance_imag (2 * excitation_current) excitation_current = 0)
    by (unfold compensated_impedance_imag; lra).
  rewrite Hx.
  replace (0 ^ 2 + 0 ^ 2) with 0 by lra. rewrite sqrt_0.
  destruct (Rlt_dec 0 0) as [H | _]; [lra | ].
  assert (Ha : math_atan2 0 0 = 0).
  { unfold math_atan2. destruct (Rlt_dec 0 0); [lra | reflexivity]. }
  rewrite Ha, degrees_0.
  replace (math_radians 0) with 0 by (unfold math_radians; lra).
  rewrite cos_0, sin_0.
  replace (voltage * 0 * 1) with 0 by lra.
  replace (voltage * 0 * 0) with 0 by lra.
  replace (voltage * 0) with 0 by lra.
  destruct (Rlt_dec 0 0) as [H | _]; [lra | ].
  sample_eq; try reflexivity.
  unfold py_max, py_min. case_compare; lra.
Qed.

(** ** Further properties of [calculate_power_factor] *)

(** X1.  On every input the three powers form a right triangle: the
    squares of real and reactive power add up to the square of apparent
    power. *)
Theorem power_triangle (voltage impedance_real impedance_imag excitation_current : R) :
  exists current power_factor angle real_power apparent_power reactive_power,
    calculate_power_factor voltage impedance_real impedance_imag excitation_current
    = inr (current, power_factor, angle, real_power, apparent_power, reactive_power)
    /\ real_power ^ 2 + reactive_power ^ 2 = apparent_power ^ 2.
Proof.
  do 6 eexists. split; [apply calculate_power_factor_returns | ].
  cbv zeta.
  set (s := voltage * _). set (a := math_radians _).
  pose proof (sin2_cos2 a) as H. unfold Rsqr in H.
  replace (s ^ 2) with (s ^ 2 * (sin a * sin a + cos a * cos a))
    by (rewrite H; ring).
  ring.
Qed.

(** X2.  On every input, also for a negative voltage, the apparent power
    is not negative, and neither real nor reactive power exceeds it in
    absolute value. *)
Theorem apparent_power_bounds (voltage impedance_real impedance_imag excitation_current : R) :
  exists current power_factor angle real_power apparent_power reactive_power,
    calculate_power_factor voltage impedance_real impedance_imag excitation_current
    = inr (current, power_factor, angle, real_power, apparent_power, reactive_power)
    /\ 0 <= apparent_power
    /\ Rabs real_power <= apparent_power
    /\ Rabs reactive_power <= apparent_power.
Proof.
  do 6 eexists. split; [apply calculate_power_factor_returns | ].
  cbv zeta.
  set (m := sqrt _). set (a := math_radians _).
  assert (Hs : 0 <= voltage * (if Rlt_dec 0 m then voltage / m else 0)).
  { destruct (Rlt_dec 0 m) as [Hm | Hm]; [ | lra].
    replace (voltage * (voltage / m)) with (voltage * voltage * / m) by (field; lra).
    apply Rmult_le_pos; [nra | left; now apply Rinv_0_lt_compat]. }
  set (s := voltage * _) in *.
  pose proof (COS_bound a) as Hc. pose proof (SIN_bound a) as Hsn.
  split; [exact Hs | ].
  split; unfold Rabs; destruct (Rcase_abs _); nra.
Qed.

(** X3.  The two guards at work.  Without voltage the current, the power
    factor and the three powers are 0 whatever the impedance; with a real
    impedance of 0 and an imaginary impedance of twice the excitation
    current the impedance magnitude is 0 and every component is 0, whatever
    the voltage. *)
Theorem guarded_inputs (voltage impedance_real impedance_imag excitation_current : R) :
  calculate_power_factor 0 impedance_real impedance_imag excitation_current
  = inr (0, 0,
         math_degrees
           (math_atan2 (compensated_impedance_imag impedance_imag excitation_current)
                       impedance_real),
         0, 0, 0)
  /\ calculate_power_factor voltage 0 (2 * excitation_current) excitation_current
     = inr (0, 0, 0, 0, 0, 0).
Proof.
  split.
  - apply calculate_power_factor_no_voltage.
  - apply calculate_power_factor_no_impedance.
Qed.

(** X4.  With a voltage other than 0 and an impedance other than 0 the
    sample is: current [V / |Z|], power factor [max(0, R / |Z|)], phase
    angle the angle of [(R, X)] in degrees, real power [V^2 R / |Z|^2],
    apparent power [V^2 / |Z|] and reactive power [V^2 X / |Z|^2], where
    [X] is the compensated reactance and [|Z|] the root of [R^2 + X^2]. *)
Theorem textbook_sample (voltage impedance_real impedance_imag excitation_current : R) :
  voltage <> 0 ->
  impedance_real <> 0 \/ impedance_imag <> 2 * excitation_current ->
  let x := compensated_impedance_imag impedance_imag excitation_current in
  let m := sqrt (impedance_real ^ 2 + x ^ 2) in
  0 < m
  /\ calculate_power_factor voltage impedance_real impedance_imag excitation_current
     = inr (voltage / m,
            Rmax 0 (impedance_real / m),
            math_degrees (math_atan2 x impedance_real),
            voltage * voltage * impedance_real / (m * m),
            voltage * voltage / m,
            voltage * voltage * x / (m * m)).
Proof.
  intros Hv Hz x m.
  assert (Hm : 0 < m).
  { apply magnitude_pos_iff. destruct Hz as [Hr | Hx]; [now left | right].
    unfold x, compensated_impedance_imag. lra. }
  split; [exact Hm | ].
  now apply calculate_power_factor_closed.
Qed.

(** The initial setting of the session. *)
Lemma textbook_sample_witness :
  (230 <> 0 /\ (5 <> 0 \/ 5 <> 2 * 0))
  /\ (let x := compensated_impedance_imag 5 0 in
      let m := sqrt (5 ^ 2 + x ^ 2) in
      0 < m
      /\ calculate_power_factor 230 5 5 0
         = inr (230 / m, Rmax 0 (5 / m), math_degrees (math_atan2 x 5),
                230 * 230 * 5 / (m * m), 230 * 230 / m, 230 * 230 * x / (m * m))).
Proof.
  split; [split; [lra | left; lra] | ].
  apply (textbook_sample 230 5 5 0); [lra | left; lra].
Defined.

(** The power factor on every input: 0 without voltage or without
    impedance, and otherwise the larger of 0 and [R / |Z|]. *)
Lemma returned_power_factor (voltage impedance_real impedance_imag excitation_current : R) :
  let m := sqrt (impedance_real ^ 2
                 + compensated_impedance_imag impedance_imag excitation_current ^ 2) in
  exists sample,
    calculate_power_factor voltage impedance_real impedance_imag excitation_current
    = inr sample
    /\ sample_power_factor sample
       = if Req_dec_T voltage 0 then 0
         else if Rlt_dec 0 m then Rmax 0 (impedance_real / m) else 0.
Proof.
  intros m.
  destruct (Req_dec_T voltage 0) as [Hv | Hv].
  - subst voltage. eexists. split; [apply calculate_power_factor_no_voltage | ].
    reflexivity.
  - destruct (Rlt_dec 0 m) as [Hm | Hm].
    + eexists. split; [now apply calculate_power_factor_closed | ]. reflexivity.
    + assert (Hm0 : m = 0) by (pose proof (hypot_nonneg impedance_real
        (compensated_impedance_imag impedance_imag excitation_current)); fold m in H; lra).
      apply hypot_zero in Hm0. destruct Hm0 as [Hr Hx].
      unfold compensated_impedance_imag in Hx.
      assert (Hi : impedance_imag = 2 * excitation_current) by lra.
      subst impedance_real impedance_imag.
      eexists. split; [apply calculate_power_factor_no_impedance | ]. reflexivity.
Qed.

(** X5.  With a voltage other than 0, the power factor is 1 exactly at
    full compensation of a positive real impedance: when the real impedance
    is positive and the imaginary impedance is twice the excitation
    current. *)
Theorem unit_power_factor (voltage impedance_real impedance_imag excitation_current : R) :
  voltage <> 0 ->
  exists sample,
    calculate_power_factor voltage impedance_real impedance_imag excitation_current
    = inr sample
    /\ (sample_power_factor sample = 1
        <-> 0 < impedance_real /\ impedance_imag = 2 * excitation_current).
Proof.
  intros Hv.
  destruct (returned_power_factor voltage impedance_real impedance_imag excitation_current)
    as (sample & Hs & Hpf).
  exists sample. split; [exact Hs | ]. rewrite Hpf. clear Hs Hpf.
  destruct (Req_dec_T voltage 0) as [E | _]; [contradiction | ].
  set (x := compensated_impedance_imag impedance_imag excitation_current).
  assert (Hx : x = impedance_imag - excitation_current * 2) by reflexivity.
  pose proof (hypot_sqr impedance_real x) as Hmm.
  destruct (Rlt_dec 0 (sqrt (impedance_real ^ 2 + x ^ 2))) as [Hm | Hm].
  - set (m := sqrt (impedance_real ^ 2 + x ^ 2)) in *.
    split.
    + intros H1.
      assert (Hq : impedance_real / m = 1).
      { unfold Rmax in H1. destruct (Rle_dec 0 (impedance_real / m)); lra. }
      assert (Hr : impedance_real = m).
      { replace impedance_real with (impedance_real / m * m) by (field; lra).
        rewrite Hq. lra. }
      split; [lra | ]. rewrite <- Hr in Hmm. nra.
    + intros [Hr Hi].
      assert (Hx0 : x = 0) by lra. rewrite Hx0 in Hmm.
      assert (Hrm : m = impedance_real) by nra.
      rewrite Hrm.
      replace (impedance_real / impedance_real) with 1 by (field; lra).
      unfold Rmax. destruct (Rle_dec 0 1); lra.
  - split; [lra | ].
    intros [Hr _]. exfalso. apply Hm. apply hypot_pos. left. lra.
Qed.

(** Full compensation of the initial impedances. *)
Lemma unit_power_factor_witness :
  230 <> 0
  /\ exists sample,
      calculate_power_factor 230 5 5 2.5 = inr sample
      /\ (sample_power_factor sample = 1 <-> 0 < 5 /\ 5 = 2 * 2.5).
Proof.
  split; [lra | ].
  apply (unit_power_factor 230 5 5 2.5). lra.
Defined.

(** X6.  On every input the power factor is 0 exactly when there is no
    voltage or the real impedance is not positive: the lower clamp hides
    every negative real impedance. *)
Theorem zero_power_factor (voltage impedance_real impedance_imag excitation_current : R) :
  exists sample,
    calculate_power_factor voltage impedance_real impedance_imag excitation_current
    = inr sample
    /\ (sample_power_factor sample = 0 <-> voltage = 0 \/ impedance_real <= 0).
Proof.
  destruct (returned_power_factor voltage impedance_real impedance_imag excitation_current)
    as (sample & Hs & Hpf).
  exists sample. split; [exact Hs | ]. rewrite Hpf. clear Hs Hpf.
  destruct (Req_dec_T voltage 0) as [Hv | Hv]; [split; [now left | reflexivity] | ].
  set (x := compensated_impedance_imag impedance_imag excitation_current).
  destruct (Rlt_dec 0 (sqrt (impedance_real ^ 2 + x ^ 2))) as [Hm | Hm].
  - set (m := sqrt (impedance_real ^ 2 + x ^ 2)) in *.
    assert (Hi : 0 < / m) by now apply Rinv_0_lt_compat.
    unfold Rmax, Rdiv.
    destruct (Rle_dec 0 (impedance_real * / m)) as [Hq | Hq]; split.
    + intros H0. right. nra.
    + intros [E | Hr]; [contradiction | nra].
    + intros _. right. nra.
    + reflexivity.
  - split; [ | reflexivity].
    intros _. right.
    destruct (Rle_dec impedance_real 0) as [Hr | Hr]; [exact Hr | ].
    exfalso. apply Hm. apply hypot_pos. left. lra.
Qed.

(** X7.  With a voltage other than 0 and a positive real impedance, a
    compensated reactance that is smaller in absolute value gives a strictly
    larger power factor: moving the excitation current toward half the
    imaginary impedance always improves it. *)
Theorem compensation_improves_power_factor
    (voltage impedance_real impedance_imag e1 e2 : R) :
  voltage <> 0 ->
  0 < impedance_real ->
  Rabs (compensated_impedance_imag impedance_imag e1)
  < Rabs (compensated_impedance_imag impedance_imag e2) ->
  exists sample1 sample2,
    calculate_power_factor voltage impedance_real impedance_imag e1 = inr sample1
    /\ calculate_power_factor voltage impedance_real impedance_imag e2 = inr sample2
    /\ sample_power_factor sample2 < sample_power_factor sample1.
Proof.
  intros Hv Hr Habs.
  set (x1 := compensated_impedance_imag impedance_imag e1) in *.
  set (x2 := compensated_impedance_imag impedance_imag e2) in *.
  assert (Hm1 : 0 < sqrt (impedance_real ^ 2 + x1 ^ 2)) by (apply hypot_pos; left; lra).
  assert (Hm2 : 0 < sqrt (impedance_real ^ 2 + x2 ^ 2)) by (apply hypot_pos; left; lra).
  do 2 eexists.
  split; [now apply calculate_power_factor_closed | ].
  split; [now apply calculate_power_factor_closed | ].
  cbn [sample_power_factor]. fold x1. fold x2.
  assert (Hsq : x1 ^ 2 < x2 ^ 2).
  { pose proof (Rabs_pos x1) as Hp.
    rewrite <- (pow2_abs x1), <- (pow2_abs x2). nra. }
  assert (Hlt : sqrt (impedance_real ^ 2 + x1 ^ 2) < sqrt (impedance_real ^ 2 + x2 ^ 2)).
  { apply sqrt_lt_1_alt. nra. }
  set (m1 := sqrt (impedance_real ^ 2 + x1 ^ 2)) in *.
  set (m2 := sqrt (impedance_real ^ 2 + x2 ^ 2)) in *.
  assert (H1 : 0 < impedance_real / m1) by now apply Rdiv_lt_0_compat.
  assert (H2 : 0 < impedance_real / m2) by now apply Rdiv_lt_0_compat.
  rewrite !Rmax_right by lra.
  unfold Rdiv. apply Rmult_lt_compat_l; [exact Hr | ].
  now apply Rinv_lt_contravar; [apply Rmult_lt_0_compat | ].
Qed.

(** Raising the excitation current from 0 to 1 at impedances 5 and 5. *)
Lemma compensation_improves_power_factor_witness :
  (230 <> 0 /\ 0 < 5
   /\ Rabs (compensated_impedance_imag 5 1) < Rabs (compensated_impedance_imag 5 0))
  /\ exists sample1 sample2,
      calculate_power_factor 230 5 5 1 = inr sample1
      /\ calculate_power_factor 230 5 5 0 = inr sample2
      /\ sample_power_factor sample2 < sample_power_factor sample1.
Proof.
  assert (H : Rabs (compensated_impedance_imag 5 1)
              < Rabs (compensated_impedance_imag 5 0)).
  { unfold compensated_impedance_imag. rewrite !Rabs_right by lra. lra. }
  split; [split; [lra | split; [lra | exact H]] | ].
  apply (compensation_improves_power_factor 230 5 5 1 0); [lra | lra | exact H].
Defined.

Lemma math_atan2_opp (y x : R) :
  0 < x -> math_atan2 (- y) x = - math_atan2 y x.
Proof.
  intros Hx. rewrite !math_atan2_right by exact Hx.
  replace (- y / x) with (- (y / x)) by (field; lra).
  apply atan_opp.
Qed.

Lemma degrees_opp (a : R) : math_degrees (- a) = - math_degrees a.
Proof. unfold math_degrees. ring. Qed.

Lemma radians_opp (a : R) : math_radians (- a) = - math_radians a.
Proof. unfold math_radians. ring. Qed.

Lemma degrees_PI : math_degrees PI = 180.
Proof. unfold math_degrees. pose proof PI_RGT_0. field. lra. Qed.

(** X8.  With a positive real impedance, the excitation currents [e] and
    [impedance_imag - e] give mirror images: the same current, power factor,
    real and apparent power, and opposite phase angle and reactive power. *)
Theorem mirrored_excitation (voltage impedance_real impedance_imag excitation_current : R) :
  0 < impedance_real ->
  exists current power_factor angle real_power apparent_power reactive_power,
    calculate_power_factor voltage impedance_real impedance_imag excitation_current
    = inr (current, power_factor, angle, real_power, apparent_power, reactive_power)
    /\ calculate_power_factor voltage impedance_real impedance_imag
         (impedance_imag - excitation_current)
       = inr (current, power_factor, - angle, real_power, apparent_power,
              - reactive_power).
Proof.
  intros Hr.
  do 6 eexists. split; [apply calculate_power_factor_returns | ].
  rewrite calculate_power_factor_returns. cbv zeta.
  assert (Hx : compensated_impedance_imag impedance_imag
                 (impedance_imag - excitation_current)
               = - compensated_impedance_imag impedance_imag excitation_current)
    by (unfold compensated_impedance_imag; ring).
  rewrite Hx.
  set (x := compensated_impedance_imag impedance_imag excitation_current).
  replace (impedance_real ^ 2 + (- x) ^ 2) with (impedance_real ^ 2 + x ^ 2) by ring.
  rewrite math_atan2_opp by exact Hr.
  rewrite degrees_opp, radians_opp, cos_neg, sin_neg.
  sample_eq; try reflexivity. ring.
Qed.

(** Excitation currents 1 and 4 at impedances 5 and 5. *)
Lemma mirrored_excitation_witness :
  0 < 5
  /\ exists current power_factor angle real_power apparent_power reactive_power,
      calculate_power_factor 230 5 5 1
      = inr (current, power_factor, angle, real_power, apparent_power, reactive_power)
      /\ calculate_power_factor 230 5 5 (5 - 1)
         = inr (current, power_factor, - angle, real_power, apparent_power,
                - reactive_power).
Proof.
  split; [lra | ].
  apply (mirrored_excitation 230 5 5 1). lra.
Defined.

(** X9.  The phase angle returned lies in (-180, 180] on every input, and
    strictly between -90 and 90 when the real impedance is positive. *)
Theorem phase_angle_range (voltage impedance_real impedance_imag excitation_current : R) :
  exists sample,
    calculate_power_factor voltage impedance_real impedance_imag excitation_current
    = inr sample
    /\ -180 < phase_angle sample <= 180
    /\ (0 < impedance_real -> -90 < phase_angle sample < 90).
Proof.
  eexists. split; [apply calculate_power_factor_returns | ].
  cbv zeta. cbn [phase_angle].
  set (x := compensated_impedance_imag impedance_imag excitation_current).
  pose proof PI_RGT_0 as HPI.
  assert (Hk : 0 < 180 / PI) by (apply Rdiv_lt_0_compat; lra).
  assert (Hd : forall a, math_degrees a = a * (180 / PI)) by reflexivity.
  assert (H180 : PI * (180 / PI) = 180) by (field; lra).
  split.
  - pose proof (math_atan2_range x impedance_real) as [Hlo Hhi].
    rewrite Hd. split; nra.
  - intros Hr.
    pose proof (math_atan2_right_bound x impedance_real Hr) as [Hlo Hhi].
    rewrite Hd. split; nra.
Qed.

(** For a voltage other than 0 and a positive real impedance, the sample
    and the one message it gets. *)
Lemma sample_message
    (voltage impedance_real impedance_imag excitation_current : R) :
  voltage <> 0 ->
  0 < impedance_real ->
  exists current power_factor angle real_power apparent_power reactive_power,
    calculate_power_factor voltage impedance_real impedance_imag excitation_current
    = inr (current, power_factor, angle, real_power, apparent_power, reactive_power)
    /\ exists msg,
        advisory_lines power_factor reactive_power = [msg]
        /\ (msg = LaggingLow -> 2 * excitation_current < impedance_imag)
        /\ (msg = LeadingLow -> impedance_imag < 2 * excitation_current).
Proof.
  intros Hv Hr.
  set (x := compensated_impedance_imag impedance_imag excitation_current).
  assert (Hx : x = impedance_imag - excitation_current * 2) by reflexivity.
  assert (Hm : 0 < sqrt (impedance_real ^ 2 + x ^ 2)) by (apply hypot_pos; left; lra).
  do 6 eexists. split; [now apply calculate_power_factor_closed | ].
  fold x.
  pose proof (hypot_sqr impedance_real x) as Hmm.
  set (m := sqrt (impedance_real ^ 2 + x ^ 2)) in *.
  assert (Hpf : 0 < impedance_real / m) by now apply Rdiv_lt_0_compat.
  rewrite Rmax_right by lra.
  assert (Hk : 0 < voltage * voltage / (m * m)).
  { apply Rdiv_lt_0_compat; nra. }
  replace (voltage * voltage * x / (m * m)) with (voltage * voltage / (m * m) * x)
    by (field; lra).
  set (k := voltage * voltage / (m * m)) in *.
  destruct (Rtotal_order x 0) as [Hneg | [Hzero | Hpos]].
  - assert (Hq : k * x < 0) by nra.
    unfold advisory_lines. case_compare; try lra;
      eexists; (split; [reflexivity | split; intros; (discriminate || lra)]).
  - assert (Hrm : m = impedance_real) by (rewrite Hzero in Hmm; nra).
    assert (Hone : impedance_real / m = 1) by (rewrite Hrm; field; lra).
    rewrite Hone, Hzero, Rmult_0_r.
    unfold advisory_lines. case_compare; try lra;
      eexists; (split; [reflexivity | split; intros; (discriminate || lra)]).
  - assert (Hq : 0 < k * x) by nra.
    unfold advisory_lines. case_compare; try lra;
      eexists; (split; [reflexivity | split; intros; (discriminate || lra)]).
Qed.

(** X10.  With a voltage other than 0 and a positive real impedance the
    status always gets exactly one message for the computed sample: the
    case without a message (a power factor below 0.95 with a reactive power
    of 0) cannot occur.  The lagging message comes only with an imaginary
    impedance above twice the excitation current, the leading one only with
    one below. *)
Theorem computed_sample_has_one_message
    (voltage impedance_real impedance_imag excitation_current : R) :
  voltage <> 0 ->
  0 < impedance_real ->
  exists current power_factor angle real_power apparent_power reactive_power,
    calculate_power_factor voltage impedance_real impedance_imag excitation_current
    = inr (current, power_factor, angle, real_power, apparent_power, reactive_power)
    /\ exists msg,
        advisory_lines power_factor reactive_power = [msg]
        /\ (msg = LaggingLow -> 2 * excitation_current < impedance_imag)
        /\ (msg = LeadingLow -> impedance_imag < 2 * excitation_current).
Proof. apply sample_message. Qed.

(** The initial setting of the session. *)
Lemma computed_sample_has_one_message_witness :
  (230 <> 0 /\ 0 < 5)
  /\ exists current power_factor angle real_power apparent_power reactive_power,
      calculate_power_factor 230 5 5 0
      = inr (current, power_factor, angle, real_power, apparent_power, reactive_power)
      /\ exists msg,
          advisory_lines power_factor reactive_power = [msg]
          /\ (msg = LaggingLow -> 2 * 0 < 5)
          /\ (msg = LeadingLow -> 5 < 2 * 0).
Proof.
  split; [lra | ].
  apply (computed_sample_has_one_message 230 5 5 0); lra.
Defined.

(** ** Floor, remainder and rounding *)

Lemma math_floor_bounds (x : R) : IZR (math_floor x) <= x < IZR (math_floor x) + 1.
Proof.
  unfold math_floor. pose proof (base_Int_part x) as [H1 H2]. lra.
Qed.

Lemma math_floor_monotone (x y : R) : x <= y -> (math_floor x <= math_floor y)%Z.
Proof.
  intros Hxy.
  pose proof (math_floor_bounds x) as [Hx _].
  pose proof (math_floor_bounds y) as [_ Hy].
  apply Z.lt_succ_r. apply lt_IZR. rewrite succ_IZR. lra.
Qed.

(** The remainder by a positive divisor lies in [0, divisor). *)
Lemma py_mod_range (x y r : R) :
  0 < y -> py_mod x y = inr r -> 0 <= r < y.
Proof.
  intros Hy. rewrite py_mod_nonzero by lra. intros H. injection H as <-.
  pose proof (math_floor_bounds (x / y)) as [Hlo Hhi].
  assert (Hx : x = x / y * y) by (field; lra).
  split; nra.
Qed.

(** [round] moves a number by at most one half. *)
Lemma py_round_error (x : R) : Rabs (IZR (py_round x) - x) <= 1 / 2.
Proof.
  unfold py_round.
  pose proof (math_floor_bounds x) as [Hlo Hhi].
  set (f := math_floor x) in *.
  destruct (Rlt_dec (x - IZR f) (1 / 2)) as [H1 | H1].
  - rewrite Rabs_left1 by lra. lra.
  - destruct (Rlt_dec (1 / 2) (x - IZR f)) as [H2 | H2].
    + rewrite plus_IZR. rewrite Rabs_right by lra. lra.
    + destruct (Z.even f).
      * rewrite Rabs_left1 by lra. lra.
      * rewrite plus_IZR. rewrite Rabs_right by lra. lra.
Qed.

Lemma py_round_floor_or_next (x : R) :
  py_round x = math_floor x \/ py_round x = (math_floor x + 1)%Z.
Proof.
  unfold py_round.
  destruct (Rlt_dec _ _); [now left | ].
  destruct (Rlt_dec _ _); [now right | ].
  destruct (Z.even _); [now left | now right].
Qed.

(** [round] is monotone. *)
Lemma py_round_monotone (x y : R) : x <= y -> (py_round x <= py_round y)%Z.
Proof.
  intros Hxy.
  pose proof (math_floor_monotone x y Hxy) as Hf.
  destruct (Z.eq_dec (math_floor x) (math_floor y)) as [E | N].
  - unfold py_round. rewrite E.
    set (f := math_floor y).
    destruct (Rlt_dec (x - IZR f) (1 / 2)) as [X1 | X1];
      destruct (Rlt_dec (y - IZR f) (1 / 2)) as [Y1 | Y1]; try lra; try lia.
    + destruct (Rlt_dec (1 / 2) (y - IZR f)); [lia | ].
      destruct (Z.even f); lia.
    + destruct (Rlt_dec (1 / 2) (x - IZR f)) as [X2 | X2];
        destruct (Rlt_dec (1 / 2) (y - IZR f)) as [Y2 | Y2]; try lra; try lia.
      destruct (Z.even f); lia.
  - destruct (py_round_floor_or_next x) as [Hx | Hx];
      destruct (py_round_floor_or_next y) as [Hy | Hy]; lia.
Qed.

(** Cosine and sine repeat after any whole number of turns. *)
Lemma cos_period_Z (a : R) (z : Z) : cos (a + 2 * IZR z * PI) = cos a.
Proof.
  destruct z as [ | p | p].
  - f_equal. lra.
  - replace (IZR (Z.pos p)) with (INR (Pos.to_nat p))
      by (now rewrite INR_IZR_INZ, positive_nat_Z).
    apply cos_period.
  - rewrite <- (cos_period (a + 2 * IZR (Z.neg p) * PI) (Pos.to_nat p)).
    f_equal.
    replace (INR (Pos.to_nat p)) with (IZR (Z.pos p))
      by (now rewrite INR_IZR_INZ, positive_nat_Z).
    change (Z.neg p) with (- Z.pos p)%Z. rewrite opp_IZR. ring.
Qed.

Lemma sin_period_Z (a : R) (z : Z) : sin (a + 2 * IZR z * PI) = sin a.
Proof.
  destruct z as [ | p | p].
  - f_equal. lra.
  - replace (IZR (Z.pos p)) with (INR (Pos.to_nat p))
      by (now rewrite INR_IZR_INZ, positive_nat_Z).
    apply sin_period.
  - rewrite <- (sin_period (a + 2 * IZR (Z.neg p) * PI) (Pos.to_nat p)).
    f_equal.
    replace (INR (Pos.to_nat p)) with (IZR (Z.pos p))
      by (now rewrite INR_IZR_INZ, positive_nat_Z).
    change (Z.neg p) with (- Z.pos p)%Z. rewrite opp_IZR. ring.
Qed.

(** ** What a drag does to a dial *)

(** The angle [on_drag] computes for a pointer position (lines 57-60). *)
Lemma drag_degrees_returns (x y : Z) :
  exists a k,
    py_mod (math_degrees (math_atan2 (IZR (y - 100)) (IZR (x - 100))) + 450) 360
    = inr a
    /\ a = math_degrees (math_atan2 (IZR (y - 100)) (IZR (x - 100))) + 450
           - 360 * IZR k
    /\ 0 <= a < 360.
Proof.
  eexists. eexists. split; [apply py_mod_nonzero; lra | ].
  split; [reflexivity | ].
  apply (py_mod_range (math_degrees (math_atan2 (IZR (y - 100)) (IZR (x - 100))) + 450) 360);
    [lra | apply py_mod_nonzero; lra].
Qed.

(** If [on_drag] returns, the step is not 0 and the new dial is this
    one: the old value and the old angle play no part. *)
Lemma on_drag_inversion (self self' : RotaryDial.t) (x y : Z) :
  RotaryDial.on_drag self x y = inr self' ->
  RotaryDial.step self <> 0
  /\ exists a,
      py_mod (math_degrees (math_atan2 (IZR (y - 100)) (IZR (x - 100))) + 450) 360
      = inr a
      /\ self'
         = RotaryDial.mk (RotaryDial.min_val self) (RotaryDial.max_val self)
             (py_max (RotaryDial.min_val self)
                (py_min (RotaryDial.max_val self)
                   (IZR (py_round
                           ((RotaryDial.min_val self
                             + (RotaryDial.max_val self - RotaryDial.min_val self)
                               * (a / 360))
                            / RotaryDial.step self))
                    * RotaryDial.step self)))
             (RotaryDial.step self) a.
Proof.
  destruct self as [lo hi v st an].
  destruct (drag_degrees_returns x y) as (a & k & Ha & _ & _).
  unfold RotaryDial.on_drag. rewrite Ha, bind_inr.
  cbv zeta. unfold RotaryDial.set_angle, RotaryDial.set_value.
  cbn [RotaryDial.angle RotaryDial.min_val RotaryDial.max_val
       RotaryDial.step RotaryDial.value].
  rewrite truediv_nonzero by lra. rewrite bind_inr.
  unfold truediv at 1.
  destruct (Req_dec_T st 0) as [E | N]; [discriminate | ].
  rewrite bind_inr. intros H. injection H as <-.
  split; [exact N | ]. exists a. split; reflexivity.
Qed.

Lemma on_drag_zero_step (self : RotaryDial.t) (x y : Z) :
  RotaryDial.step self = 0 -> RotaryDial.on_drag self x y = inl ZeroDivisionError.
Proof.
  intros Hst. destruct self as [lo hi v st an]. cbn in Hst. subst st.
  destruct (drag_degrees_returns x y) as (a & k & Ha & _ & _).
  unfold RotaryDial.on_drag. rewrite Ha, bind_inr.
  cbv zeta. unfold RotaryDial.set_angle, RotaryDial.set_value.
  cbn [RotaryDial.angle RotaryDial.min_val RotaryDial.max_val
       RotaryDial.step RotaryDial.value].
  rewrite truediv_nonzero by lra. rewrite bind_inr.
  unfold truediv at 1.
  destruct (Req_dec_T 0 0) as [_ | N]; [reflexivity | contradiction].
Qed.

(** The dial a drag returns, when the step is not 0. *)
Lemma on_drag_result (self : RotaryDial.t) (x y : Z) :
  RotaryDial.step self <> 0 ->
  exists a k,
    a = math_degrees (math_atan2 (IZR (y - 100)) (IZR (x - 100))) + 450 - 360 * IZR k
    /\ 0 <= a < 360
    /\ RotaryDial.on_drag self x y
       = inr (RotaryDial.mk (RotaryDial.min_val self) (RotaryDial.max_val self)
                (py_max (RotaryDial.min_val self)
                   (py_min (RotaryDial.max_val self)
                      (IZR (py_round
                              ((RotaryDial.min_val self
                                + (RotaryDial.max_val self - RotaryDial.min_val self)
                                  * (a / 360))
                               / RotaryDial.step self))
                       * RotaryDial.step self)))
                (RotaryDial.step self) a).
Proof.
  intros Hst.
  destruct (on_drag_returns self x y Hst) as (a0 & v0 & Hr).
  destruct (on_drag_inversion _ _ _ _ Hr) as (_ & a & Ha & Hself).
  destruct (drag_degrees_returns x y) as (a' & k & Ha' & Hk & Hrange).
  rewrite Ha in Ha'. injection Ha' as <-.
  exists a, k. split; [exact Hk | ]. split; [exact Hrange | ].
  rewrite Hr. f_equal. exact Hself.
Qed.

(** X11.  [on_drag] raises ZeroDivisionError exactly when the step of the
    dial is 0.  Otherwise it returns a dial with the same bounds and step
    and an angle in [0, 360). *)
Theorem on_drag_outcome (self : RotaryDial.t) (x y : Z) :
  (RotaryDial.step self = 0 ->
   RotaryDial.on_drag self x y = inl ZeroDivisionError)
  /\ (RotaryDial.step self <> 0 ->
      exists self',
        RotaryDial.on_drag self x y = inr self'
        /\ RotaryDial.min_val self' = RotaryDial.min_val self
        /\ RotaryDial.max_val self' = RotaryDial.max_val self
        /\ RotaryDial.step self' = RotaryDial.step self
        /\ 0 <= RotaryDial.angle self' < 360).
Proof.
  split.
  - apply on_drag_zero_step.
  - intros Hst.
    destruct (on_drag_result self x y Hst) as (a & k & _ & Hrange & Hr).
    eexists. split; [exact Hr | ]. cbn. repeat split; lra.
Qed.

(** X12.  On a dial whose bounds are whole multiples of its step, as the
    three dials of the program are, a drag always leaves a value that is a
    whole multiple of the step. *)
Theorem on_drag_quantised (self : RotaryDial.t) (x y : Z) (lo hi : Z) :
  RotaryDial.step self <> 0 ->
  RotaryDial.min_val self = IZR lo * RotaryDial.step self ->
  RotaryDial.max_val self = IZR hi * RotaryDial.step self ->
  exists self' k,
    RotaryDial.on_drag self x y = inr self'
    /\ RotaryDial.value self' = IZR k * RotaryDial.step self'.
Proof.
  intros Hst Hlo Hhi.
  destruct (on_drag_result self x y Hst) as (a & j & _ & _ & Hr).
  rewrite Hr. cbn [RotaryDial.value RotaryDial.step].
  set (n := py_round _).
  unfold py_max, py_min.
  destruct (Rlt_dec (IZR n * RotaryDial.step self) (RotaryDial.max_val self)) as [H1 | H1].
  - destruct (Rlt_dec (RotaryDial.min_val self) (IZR n * RotaryDial.step self)).
    + eexists. exists n. split; reflexivity.
    + eexists. exists lo. split; [reflexivity | exact Hlo].
  - destruct (Rlt_dec (RotaryDial.min_val self) (RotaryDial.max_val self)).
    + eexists. exists hi. split; [reflexivity | exact Hhi].
    + eexists. exists lo. split; [reflexivity | exact Hlo].
Qed.

(** An impedance dial of the program, dragged anywhere. *)
Lemma on_drag_quantised_witness :
  (RotaryDial.step (RotaryDial.mk 1 20 5 0.5 0) <> 0
   /\ RotaryDial.min_val (RotaryDial.mk 1 20 5 0.5 0)
      = IZR 2 * RotaryDial.step (RotaryDial.mk 1 20 5 0.5 0)
   /\ RotaryDial.max_val (RotaryDial.mk 1 20 5 0.5 0)
      = IZR 40 * RotaryDial.step (RotaryDial.mk 1 20 5 0.5 0))
  /\ exists self' k,
      RotaryDial.on_drag (RotaryDial.mk 1 20 5 0.5 0) 150 60 = inr self'
      /\ RotaryDial.value self' = IZR k * RotaryDial.step self'.
Proof.
  assert (H1 : RotaryDial.step (RotaryDial.mk 1 20 5 0.5 0) <> 0) by (cbn; lra).
  assert (H2 : RotaryDial.min_val (RotaryDial.mk 1 20 5 0.5 0)
               = IZR 2 * RotaryDial.step (RotaryDial.mk 1 20 5 0.5 0)) by (cbn; lra).
  assert (H3 : RotaryDial.max_val (RotaryDial.mk 1 20 5 0.5 0)
               = IZR 40 * RotaryDial.step (RotaryDial.mk 1 20 5 0.5 0)) by (cbn; lra).
  split; [split; [exact H1 | split; [exact H2 | exact H3]] | ].
  exact (on_drag_quantised (RotaryDial.mk 1 20 5 0.5 0) 150 60 2 40 H1 H2 H3).
Defined.

(** X13.  A drag reads only the bounds and the step of the dial: two dials
    that agree on them become the same dial, whatever their values and
    angles were.  So a second drag at the same point changes nothing. *)
Theorem on_drag_forgets_state (self other self' : RotaryDial.t) (x y : Z) :
  RotaryDial.min_val other = RotaryDial.min_val self ->
  RotaryDial.max_val other = RotaryDial.max_val self ->
  RotaryDial.step other = RotaryDial.step self ->
  RotaryDial.on_drag self x y = inr self' ->
  RotaryDial.on_drag other x y = inr self'
  /\ RotaryDial.on_drag self' x y = inr self'.
Proof.
  intros Hlo Hhi Hst Hd.
  destruct (on_drag_inversion _ _ _ _ Hd) as (Hstep & a & Ha & Hself).
  assert (Hgen : forall d,
            RotaryDial.min_val d = RotaryDial.min_val self ->
            RotaryDial.max_val d = RotaryDial.max_val self ->
            RotaryDial.step d = RotaryDial.step self ->
            RotaryDial.on_drag d x y = inr self').
  { intros d Dlo Dhi Dst.
    assert (Dstep : RotaryDial.step d <> 0) by (rewrite Dst; exact Hstep).
    destruct (on_drag_returns d x y Dstep) as (a0 & v0 & Hr).
    destruct (on_drag_inversion _ _ _ _ Hr) as (_ & a' & Ha' & Hd').
    rewrite Ha in Ha'. injection Ha' as <-.
    rewrite Hr. f_equal. rewrite Hd', Hself, Dlo, Dhi, Dst. reflexivity. }
  split.
  - now apply Hgen.
  - apply Hgen; rewrite Hself; reflexivity.
Qed.

(** A drag to the top of an impedance dial, repeated, and made on a dial
    with another value. *)
Lemma on_drag_forgets_state_witness :
  (RotaryDial.min_val (RotaryDial.mk 1 20 7 0.5 90)
   = RotaryDial.min_val (RotaryDial.mk 1 20 5 0.5 0)
   /\ RotaryDial.max_val (RotaryDial.mk 1 20 7 0.5 90)
      = RotaryDial.max_val (RotaryDial.mk 1 20 5 0.5 0)
   /\ RotaryDial.step (RotaryDial.mk 1 20 7 0.5 90)
      = RotaryDial.step (RotaryDial.mk 1 20 5 0.5 0)
   /\ RotaryDial.on_drag (RotaryDial.mk 1 20 5 0.5 0) 100 0
      = inr (RotaryDial.mk 1 20 1 0.5 0))
  /\ RotaryDial.on_drag (RotaryDial.mk 1 20 7 0.5 90) 100 0
     = inr (RotaryDial.mk 1 20 1 0.5 0)
  /\ RotaryDial.on_drag (RotaryDial.mk 1 20 1 0.5 0) 100 0
     = inr (RotaryDial.mk 1 20 1 0.5 0).
Proof.
  pose proof (drag_to_top_value (RotaryDial.mk 1 20 5 0.5 0) eq_refl eq_refl eq_refl)
    as Hd.
  split; [repeat split; exact Hd | ].
  exact (on_drag_forgets_state (RotaryDial.mk 1 20 5 0.5 0)
           (RotaryDial.mk 1 20 7 0.5 90) (RotaryDial.mk 1 20 1 0.5 0) 100 0
           eq_refl eq_refl eq_refl Hd).
Defined.

(** The pointer is drawn at the angle of the mouse, whole turns apart. *)
Lemma pointer_angle_of_drag (y x : R) (k : Z) :
  math_radians (math_degrees (math_atan2 y x) + 450 - 360 * IZR k - 90)
  = math_atan2 y x + 2 * IZR (1 - k) * PI.
Proof.
  rewrite minus_IZR. unfold math_radians, math_degrees.
  pose proof PI_RGT_0. field. lra.
Qed.

(** X14.  After a drag away from the centre of the canvas, the pointer
    that [draw_dial] draws points at the mouse: it runs from the centre
    (100, 100) to the point at distance 70 in the direction of the mouse. *)
Theorem pointer_follows_mouse (self : RotaryDial.t) (x y : Z) :
  RotaryDial.step self <> 0 ->
  (x <> 100 \/ y <> 100)%Z ->
  let dx := IZR (x - 100) in
  let dy := IZR (y - 100) in
  let d := sqrt (dx ^ 2 + dy ^ 2) in
  exists self',
    RotaryDial.on_drag self x y = inr self'
    /\ 0 < d
    /\ RotaryDial.pointer_tip self' = (100 + 70 * (dx / d), 100 + 70 * (dy / d))
    /\ In (RotaryDial.create_line 100 100 (100 + 70 * (dx / d)) (100 + 70 * (dy / d)))
          (RotaryDial.draw_dial self').
Proof.
  intros Hst Hxy dx dy d.
  assert (Hne : dx <> 0 \/ dy <> 0).
  { destruct Hxy as [Hx | Hy]; [left | right]; apply not_0_IZR; lia. }
  destruct (on_drag_result self x y Hst) as (a & k & Ha & _ & Hr).
  eexists. split; [exact Hr | ].
  split; [now apply hypot_pos | ].
  assert (Htip : RotaryDial.pointer_tip
                   (RotaryDial.mk (RotaryDial.min_val self) (RotaryDial.max_val self)
                      (py_max (RotaryDial.min_val self)
                         (py_min (RotaryDial.max_val self)
                            (IZR (py_round
                                    ((RotaryDial.min_val self
                                      + (RotaryDial.max_val self - RotaryDial.min_val self)
                                        * (a / 360))
                                     / RotaryDial.step self))
                             * RotaryDial.step self)))
                      (RotaryDial.step self) a)
                 = (100 + 70 * (dx / d), 100 + 70 * (dy / d))).
  { unfold RotaryDial.pointer_tip. cbn [RotaryDial.angle].
    rewrite Ha. fold dx. fold dy.
    rewrite pointer_angle_of_drag, cos_period_Z, sin_period_Z.
    rewrite cos_math_atan2, sin_math_atan2 by exact Hne. reflexivity. }
  split; [exact Htip | ].
  unfold RotaryDial.draw_dial. rewrite Htip.
  right. apply in_or_app. right. left. reflexivity.
Qed.

(** A drag to the right of the centre on an impedance dial. *)
Lemma pointer_follows_mouse_witness :
  (RotaryDial.step (RotaryDial.mk 1 20 5 0.5 0) <> 0 /\ (150 <> 100 \/ 100 <> 100)%Z)
  /\ (let dx := IZR (150 - 100) in
      let dy := IZR (100 - 100) in
      let d := sqrt (dx ^ 2 + dy ^ 2) in
      exists self',
        RotaryDial.on_drag (RotaryDial.mk 1 20 5 0.5 0) 150 100 = inr self'
        /\ 0 < d
        /\ RotaryDial.pointer_tip self' = (100 + 70 * (dx / d), 100 + 70 * (dy / d))
        /\ In (RotaryDial.create_line 100 100 (100 + 70 * (dx / d)) (100 + 70 * (dy / d)))
              (RotaryDial.draw_dial self')).
Proof.
  assert (H1 : RotaryDial.step (RotaryDial.mk 1 20 5 0.5 0) <> 0) by (cbn; lra).
  assert (H2 : (150 <> 100 \/ 100 <> 100)%Z) by (left; lia).
  split; [split; [exact H1 | exact H2] | ].
  exact (pointer_follows_mouse (RotaryDial.mk 1 20 5 0.5 0) 150 100 H1 H2).
Defined.

(** The value read off an angle, before rounding (line 63). *)
Lemma raw_value_range (lo hi a : R) :
  lo <= hi -> 0 <= a < 360 -> lo <= lo + (hi - lo) * (a / 360) <= hi.
Proof. intros Hb Ha. split; nra. Qed.

(** X15.  On a dial with a positive step and ordered bounds, the value
    after a drag differs by at most half a step from the value its angle
    stands for, [min_val + (max_val - min_val) * angle / 360]. *)
Theorem on_drag_within_half_step (self : RotaryDial.t) (x y : Z) :
  0 < RotaryDial.step self ->
  RotaryDial.min_val self <= RotaryDial.max_val self ->
  exists self',
    RotaryDial.on_drag self x y = inr self'
    /\ Rabs (RotaryDial.value self'
             - (RotaryDial.min_val self'
                + (RotaryDial.max_val self' - RotaryDial.min_val self')
                  * (RotaryDial.angle self' / 360)))
       <= RotaryDial.step self' / 2.
Proof.
  intros Hst Hb.
  assert (Hst0 : RotaryDial.step self <> 0) by lra.
  destruct (on_drag_result self x y Hst0) as (a & k & _ & Ha & Hr).
  eexists. split; [exact Hr | ].
  cbn [RotaryDial.value RotaryDial.min_val RotaryDial.max_val
       RotaryDial.step RotaryDial.angle].
  destruct self as [lo hi v st an].
  cbn [RotaryDial.min_val RotaryDial.max_val RotaryDial.step] in *.
  pose proof (raw_value_range lo hi a Hb Ha) as Hraw.
  set (raw := lo + (hi - lo) * (a / 360)) in *.
  pose proof (py_round_error (raw / st)) as Herr.
  set (n := py_round (raw / st)) in *.
  assert (Herr' : - (1 / 2) <= IZR n - raw / st <= 1 / 2).
  { revert Herr. unfold Rabs. destruct (Rcase_abs _); lra. }
  destruct Herr' as [E1 E2].
  assert (Hraw' : raw = raw / st * st) by (field; lra).
  assert (F1 : - (st / 2) <= IZR n * st - raw) by nra.
  assert (F2 : IZR n * st - raw <= st / 2) by nra.
  apply Rabs_le. unfold py_max, py_min. case_compare; lra.
Qed.

(** An impedance dial of the program, dragged anywhere. *)
Lemma on_drag_within_half_step_witness :
  (0 < RotaryDial.step (RotaryDial.mk 1 20 5 0.5 0)
   /\ RotaryDial.min_val (RotaryDial.mk 1 20 5 0.5 0)
      <= RotaryDial.max_val (RotaryDial.mk 1 20 5 0.5 0))
  /\ exists self',
      RotaryDial.on_drag (RotaryDial.mk 1 20 5 0.5 0) 150 60 = inr self'
      /\ Rabs (RotaryDial.value self'
               - (RotaryDial.min_val self'
                  + (RotaryDial.max_val self' - RotaryDial.min_val self')
                    * (RotaryDial.angle self' / 360)))
         <= RotaryDial.step self' / 2.
Proof.
  assert (H1 : 0 < RotaryDial.step (RotaryDial.mk 1 20 5 0.5 0)) by (cbn; lra).
  assert (H2 : RotaryDial.min_val (RotaryDial.mk 1 20 5 0.5 0)
               <= RotaryDial.max_val (RotaryDial.mk 1 20 5 0.5 0)) by (cbn; lra).
  split; [split; [exact H1 | exact H2] | ].
  exact (on_drag_within_half_step (RotaryDial.mk 1 20 5 0.5 0) 150 60 H1 H2).
Defined.

(** X16.  On a dial with a positive step and ordered bounds the value
    follows the pointer: of two drags, the one that leaves the larger angle
    leaves a value that is not smaller. *)
Theorem on_drag_monotone (self : RotaryDial.t) (x1 y1 x2 y2 : Z) :
  0 < RotaryDial.step self ->
  RotaryDial.min_val self <= RotaryDial.max_val self ->
  exists d1 d2,
    RotaryDial.on_drag self x1 y1 = inr d1
    /\ RotaryDial.on_drag self x2 y2 = inr d2
    /\ (RotaryDial.angle d1 <= RotaryDial.angle d2 ->
        RotaryDial.value d1 <= RotaryDial.value d2).
Proof.
  intros Hst Hb.
  assert (Hst0 : RotaryDial.step self <> 0) by lra.
  destruct (on_drag_result self x1 y1 Hst0) as (a1 & k1 & _ & Ha1 & Hr1).
  destruct (on_drag_result self x2 y2 Hst0) as (a2 & k2 & _ & Ha2 & Hr2).
  do 2 eexists. split; [exact Hr1 | ]. split; [exact Hr2 | ].
  cbn [RotaryDial.value RotaryDial.angle]. intros Hle.
  destruct self as [lo hi v st an].
  cbn [RotaryDial.min_val RotaryDial.max_val RotaryDial.step] in *.
  assert (Hi : 0 < / st) by now apply Rinv_0_lt_compat.
  assert (Hraw : (lo + (hi - lo) * (a1 / 360)) / st
                 <= (lo + (hi - lo) * (a2 / 360)) / st).
  { unfold Rdiv at 1 3. apply Rmult_le_compat_r; [lra | nra]. }
  apply py_round_monotone, IZR_le in Hraw.
  set (n1 := py_round ((lo + (hi - lo) * (a1 / 360)) / st)) in *.
  set (n2 := py_round ((lo + (hi - lo) * (a2 / 360)) / st)) in *.
  assert (Hv : IZR n1 * st <= IZR n2 * st)
    by (apply Rmult_le_compat_r; [lra | exact Hraw]).
  unfold py_max, py_min. case_compare; lra.
Qed.

(** Two drags on an impedance dial of the program. *)
Lemma on_drag_monotone_witness :
  (0 < RotaryDial.step (RotaryDial.mk 1 20 5 0.5 0)
   /\ RotaryDial.min_val (RotaryDial.mk 1 20 5 0.5 0)
      <= RotaryDial.max_val (RotaryDial.mk 1 20 5 0.5 0))
  /\ exists d1 d2,
      RotaryDial.on_drag (RotaryDial.mk 1 20 5 0.5 0) 100 0 = inr d1
      /\ RotaryDial.on_drag (RotaryDial.mk 1 20 5 0.5 0) 150 100 = inr d2
      /\ (RotaryDial.angle d1 <= RotaryDial.angle d2 ->
          RotaryDial.value d1 <= RotaryDial.value d2).
Proof.
  assert (H1 : 0 < RotaryDial.step (RotaryDial.mk 1 20 5 0.5 0)) by (cbn; lra).
  assert (H2 : RotaryDial.min_val (RotaryDial.mk 1 20 5 0.5 0)
               <= RotaryDial.max_val (RotaryDial.mk 1 20 5 0.5 0)) by (cbn; lra).
  split; [split; [exact H1 | exact H2] | ].
  exact (on_drag_monotone (RotaryDial.mk 1 20 5 0.5 0) 100 0 150 100 H1 H2).
Defined.

(** The angle a drag leaves, from the angle of the mouse and the whole
    turns it holds. *)
Lemma drag_angle (self : RotaryDial.t) (x y : Z) (A t : R) (q : Z) :
  RotaryDial.step self <> 0 ->
  math_atan2 (IZR (y - 100)) (IZR (x - 100)) = A ->
  math_degrees A + 450 = 360 * IZR q + t ->
  0 <= t < 360 ->
  exists self', RotaryDial.on_drag self x y = inr self' /\ RotaryDial.angle self' = t.
Proof.
  intros Hst HA Hq Ht.
  destruct (on_drag_returns self x y Hst) as (a0 & v0 & Hr).
  destruct (on_drag_inversion _ _ _ _ Hr) as (_ & a & Ha & Hself).
  eexists. split; [exact Hr | ].
  cbn [RotaryDial.angle].
  assert (Ea : a0 = a) by (rewrite Hself in Hr at 1; now injection Hself).
  rewrite Ea. clear Ea Hself Hr.
  rewrite HA, Hq, py_mod_nonzero in Ha by lra.
  injection Ha as <-.
  assert (Hf : math_floor ((360 * IZR q + t) / 360) = q).
  { unfold math_floor. symmetry. apply Int_part_spec.
    replace ((360 * IZR q + t) / 360) with (IZR q + t / 360) by (field; lra).
    split; lra. }
  rewrite Hf. lra.
Qed.

Lemma degrees_half_PI : math_degrees (PI / 2) = 90.
Proof. unfold math_degrees. pose proof PI_RGT_0. field. lra. Qed.

(** X17.  The dial reads clockwise from twelve o'clock: a drag straight
    above the centre of the canvas leaves the angle 0, to the right 90,
    below 180 and to the left 270.  A drag on the centre itself leaves
    90. *)
Theorem drag_compass (self : RotaryDial.t) (r : Z) :
  RotaryDial.step self <> 0 ->
  (0 < r)%Z ->
  exists up right down left centre,
    RotaryDial.on_drag self 100 (100 - r) = inr up /\ RotaryDial.angle up = 0
    /\ RotaryDial.on_drag self (100 + r) 100 = inr right /\ RotaryDial.angle right = 90
    /\ RotaryDial.on_drag self 100 (100 + r) = inr down /\ RotaryDial.angle down = 180
    /\ RotaryDial.on_drag self (100 - r) 100 = inr left /\ RotaryDial.angle left = 270
    /\ RotaryDial.on_drag self 100 100 = inr centre /\ RotaryDial.angle centre = 90.
Proof.
  intros Hst Hr.
  assert (Hpos : 0 < IZR r) by now apply IZR_lt.
  assert (Z0 : IZR (100 - 100) = 0) by (simpl; reflexivity).
  assert (Zm : IZR (100 - r - 100) = - IZR r)
    by (replace (100 - r - 100)%Z with (- r)%Z by lia; apply opp_IZR).
  assert (Zp : IZR (100 + r - 100) = IZR r)
    by (replace (100 + r - 100)%Z with r by lia; reflexivity).
  destruct (drag_angle self 100 (100 - r) (- (PI / 2)) 0 1 Hst) as (up & Hu & Au).
  { rewrite Z0, Zm. unfold math_atan2.
    destruct (Rlt_dec 0 0); [lra | ].
    destruct (Rlt_dec 0 (- IZR r)); [lra | ].
    destruct (Rlt_dec (- IZR r) 0); [reflexivity | lra]. }
  { rewrite degrees_opp, degrees_half_PI. lra. }
  { lra. }
  destruct (drag_angle self (100 + r) 100 0 90 1 Hst) as (right & Hri & Ari).
  { rewrite Z0, Zp. now apply math_atan2_zero. }
  { rewrite degrees_0. lra. }
  { lra. }
  destruct (drag_angle self 100 (100 + r) (PI / 2) 180 1 Hst) as (down & Hd & Ad).
  { rewrite Z0, Zp. unfold math_atan2.
    destruct (Rlt_dec 0 0); [lra | ].
    destruct (Rlt_dec 0 (IZR r)); [reflexivity | lra]. }
  { rewrite degrees_half_PI. lra. }
  { lra. }
  destruct (drag_angle self (100 - r) 100 PI 270 1 Hst) as (left & Hl & Al).
  { rewrite Z0, Zm. unfold math_atan2.
    destruct (Rlt_dec 0 (- IZR r)); [lra | ].
    destruct (Rlt_dec (- IZR r) 0); [ | lra].
    destruct (Rlt_dec 0 0); [lra | ].
    rewrite div_pos_zero, atan_0. lra. }
  { rewrite degrees_PI. lra. }
  { lra. }
  destruct (drag_angle self 100 100 0 90 1 Hst) as (centre & Hc & Ac).
  { rewrite Z0. unfold math_atan2. destruct (Rlt_dec 0 0); [lra | reflexivity]. }
  { rewrite degrees_0. lra. }
  { lra. }
  exists up, right, down, left, centre. repeat split; assumption.
Qed.

(** Drags 50 pixels from the centre of an impedance dial. *)
Lemma drag_compass_witness :
  (RotaryDial.step (RotaryDial.mk 1 20 5 0.5 0) <> 0 /\ (0 < 50)%Z)
  /\ exists up right down left centre,
      RotaryDial.on_drag (RotaryDial.mk 1 20 5 0.5 0) 100 (100 - 50) = inr up
      /\ RotaryDial.angle up = 0
      /\ RotaryDial.on_drag (RotaryDial.mk 1 20 5 0.5 0) (100 + 50) 100 = inr right
      /\ RotaryDial.angle right = 90
      /\ RotaryDial.on_drag (RotaryDial.mk 1 20 5 0.5 0) 100 (100 + 50) = inr down
      /\ RotaryDial.angle down = 180
      /\ RotaryDial.on_drag (RotaryDial.mk 1 20 5 0.5 0) (100 - 50) 100 = inr left
      /\ RotaryDial.angle left = 270
      /\ RotaryDial.on_drag (RotaryDial.mk 1 20 5 0.5 0) 100 100 = inr centre
      /\ RotaryDial.angle centre = 90.
Proof.
  assert (H1 : RotaryDial.step (RotaryDial.mk 1 20 5 0.5 0) <> 0) by (cbn; lra).
  assert (H2 : (0 < 50)%Z) by lia.
  split; [split; [exact H1 | exact H2] | ].
  exact (drag_compass (RotaryDial.mk 1 20 5 0.5 0) 50 H1 H2).
Defined.

(** ** Building and drawing a dial *)

Lemma dial_init_returns (min_val max_val initial_val step : R) :
  max_val <> min_val ->
  RotaryDial.init min_val max_val initial_val step
  = inr (RotaryDial.mk min_val max_val initial_val step
           ((initial_val - min_val) / (max_val - min_val) * 360)).
Proof.
  intros N. unfold RotaryDial.init.
  rewrite truediv_nonzero by lra. reflexivity.
Qed.

(** X18.  [RotaryDial.__init__] raises ZeroDivisionError exactly when the
    two bounds are equal.  Otherwise it returns a dial with the given
    bounds, value and step, whose angle is the share of the turn the value
    takes between the bounds; for a value within ordered bounds that angle
    lies in [0, 360]. *)
Theorem dial_init_outcome (min_val max_val initial_val step : R) :
  (max_val = min_val ->
   RotaryDial.init min_val max_val initial_val step = inl ZeroDivisionError)
  /\ (max_val <> min_val ->
      RotaryDial.init min_val max_val initial_val step
      = inr (RotaryDial.mk min_val max_val initial_val step
               ((initial_val - min_val) / (max_val - min_val) * 360)))
  /\ (min_val < max_val -> min_val <= initial_val <= max_val ->
      exists self,
        RotaryDial.init min_val max_val initial_val step = inr self
        /\ 0 <= RotaryDial.angle self <= 360).
Proof.
  unfold RotaryDial.init, truediv. split; [ | split].
  - intros E. destruct (Req_dec_T (max_val - min_val) 0) as [_ | N];
      [reflexivity | lra].
  - intros N. destruct (Req_dec_T (max_val - min_val) 0) as [E | _];
      [lra | reflexivity].
  - intros Hlt Hv.
    destruct (Req_dec_T (max_val - min_val) 0) as [E | _]; [lra | ].
    eexists. split; [reflexivity | ]. cbn [RotaryDial.angle].
    assert (Hi : 0 < / (max_val - min_val)) by (apply Rinv_0_lt_compat; lra).
    assert (Hq : 0 <= (initial_val - min_val) / (max_val - min_val) <= 1).
    { split.
      - apply Rmult_le_pos; lra.
      - apply (Rmult_le_reg_r (max_val - min_val)); [lra | ].
        replace ((initial_val - min_val) / (max_val - min_val) * (max_val - min_val))
          with (initial_val - min_val) by (field; lra).
        lra. }
    lra.
Qed.

(** X19.  The angle [__init__] gives a value and the value [on_drag] reads
    off an angle agree: if a drag leaves the angle that [__init__] computes
    for a value within the bounds that is a whole multiple of the step, the
    drag leaves that value. *)
Theorem angle_value_round_trip
    (self : RotaryDial.t) (x y : Z) (initial_val : R) (k : Z) :
  RotaryDial.min_val self < RotaryDial.max_val self ->
  RotaryDial.step self <> 0 ->
  RotaryDial.min_val self <= initial_val <= RotaryDial.max_val self ->
  initial_val = IZR k * RotaryDial.step self ->
  exists fresh self',
    RotaryDial.init (RotaryDial.min_val self) (RotaryDial.max_val self)
                    initial_val (RotaryDial.step self) = inr fresh
    /\ RotaryDial.on_drag self x y = inr self'
    /\ (RotaryDial.angle self' = RotaryDial.angle fresh ->
        RotaryDial.value self' = initial_val).
Proof.
  intros Hb Hst Hv Hk.
  destruct (on_drag_result self x y Hst) as (a & j & _ & _ & Hr).
  do 2 eexists.
  split; [apply dial_init_returns; lra | ].
  split; [exact Hr | ].
  cbn [RotaryDial.angle RotaryDial.value]. intros Ha.
  destruct self as [lo hi v st an].
  cbn [RotaryDial.min_val RotaryDial.max_val RotaryDial.step] in *.
  assert (Hraw : (lo + (hi - lo) * (a / 360)) / st = IZR k).
  { rewrite Ha, Hk. field. split; lra. }
  rewrite Hraw, py_round_IZR, <- Hk.
  unfold py_max, py_min. case_compare; lra.
Qed.

(** The lower bound of an impedance dial and a drag to the top. *)
Lemma angle_value_round_trip_witness :
  (RotaryDial.min_val (RotaryDial.mk 1 20 5 0.5 0)
   < RotaryDial.max_val (RotaryDial.mk 1 20 5 0.5 0)
   /\ RotaryDial.step (RotaryDial.mk 1 20 5 0.5 0) <> 0
   /\ RotaryDial.min_val (RotaryDial.mk 1 20 5 0.5 0) <= 1
      <= RotaryDial.max_val (RotaryDial.mk 1 20 5 0.5 0)
   /\ 1 = IZR 2 * RotaryDial.step (RotaryDial.mk 1 20 5 0.5 0))
  /\ exists fresh self',
      RotaryDial.init (RotaryDial.min_val (RotaryDial.mk 1 20 5 0.5 0))
                      (RotaryDial.max_val (RotaryDial.mk 1 20 5 0.5 0))
                      1 (RotaryDial.step (RotaryDial.mk 1 20 5 0.5 0)) = inr fresh
      /\ RotaryDial.on_drag (RotaryDial.mk 1 20 5 0.5 0) 100 0 = inr self'
      /\ (RotaryDial.angle self' = RotaryDial.angle fresh ->
          RotaryDial.value self' = 1).
Proof.
  assert (H1 : RotaryDial.min_val (RotaryDial.mk 1 20 5 0.5 0)
               < RotaryDial.max_val (RotaryDial.mk 1 20 5 0.5 0)) by (cbn; lra).
  assert (H2 : RotaryDial.step (RotaryDial.mk 1 20 5 0.5 0) <> 0) by (cbn; lra).
  assert (H3 : RotaryDial.min_val (RotaryDial.mk 1 20 5 0.5 0) <= 1
               <= RotaryDial.max_val (RotaryDial.mk 1 20 5 0.5 0)) by (cbn; lra).
  assert (H4 : 1 = IZR 2 * RotaryDial.step (RotaryDial.mk 1 20 5 0.5 0)) by (cbn; lra).
  split; [repeat split; assumption || apply H3 | ].
  exact (angle_value_round_trip (RotaryDial.mk 1 20 5 0.5 0) 100 0 1 2 H1 H2 H3 H4).
Defined.

Lemma radians_values :
  math_radians (INR 0 * 30 - 90) = - (PI / 2)
  /\ math_radians (INR 3 * 30 - 90) = 0.
Proof.
  unfold math_radians. simpl. pose proof PI_RGT_0. split; field.
Qed.

(** X20.  The face [draw_dial] draws has 17 items.  Every hour mark is a
    segment of length 10 on a ray from the centre (100, 100), from distance
    70 to distance 80; the mark of hour 0 is at the top of the canvas and
    that of hour 3 at the right.  The pointer ends at distance 70, where the
    marks begin. *)
Theorem dial_face_geometry (self : RotaryDial.t) :
  length (RotaryDial.draw_dial self) = 17%nat
  /\ (forall i : nat,
        exists x0 y0 x1 y1,
          RotaryDial.tick_mark i = RotaryDial.create_line x0 y0 x1 y1
          /\ (x0 - 100) ^ 2 + (y0 - 100) ^ 2 = 70 ^ 2
          /\ (x1 - 100) ^ 2 + (y1 - 100) ^ 2 = 80 ^ 2
          /\ (x1 - x0) ^ 2 + (y1 - y0) ^ 2 = 10 ^ 2
          /\ (x1 - 100) * 70 = (x0 - 100) * 80
          /\ (y1 - 100) * 70 = (y0 - 100) * 80)
  /\ RotaryDial.tick_mark 0 = RotaryDial.create_line 100 30 100 20
  /\ RotaryDial.tick_mark 3 = RotaryDial.create_line 170 100 180 100
  /\ (fst (RotaryDial.pointer_tip self) - 100) ^ 2
     + (snd (RotaryDial.pointer_tip self) - 100) ^ 2 = 70 ^ 2.
Proof.
  split; [reflexivity | ].
  split.
  { intros i. unfold RotaryDial.tick_mark. do 4 eexists.
    split; [reflexivity | ].
    set (a := math_radians _).
    pose proof (sin2_cos2 a) as H. unfold Rsqr in H.
    repeat split; nra. }
  destruct radians_values as [R0 R3].
  split.
  { unfold RotaryDial.tick_mark. rewrite R0, cos_neg, sin_neg, cos_PI2, sin_PI2.
    f_equal; lra. }
  split.
  { unfold RotaryDial.tick_mark. rewrite R3, cos_0, sin_0. f_equal; lra. }
  unfold RotaryDial.pointer_tip. cbn [fst snd].
  set (a := math_radians _).
  pose proof (sin2_cos2 a) as H. unfold Rsqr in H. nra.
Qed.

(** ** The session, state by state *)

Lemma sample_power_factor_pos (v r x e : R) (sample : R * R * R * R * R * R) :
  v <> 0 -> 0 < r ->
  calculate_power_factor v r x e = inr sample ->
  0 < sample_power_factor sample <= 1.
Proof.
  intros Hv Hr Hs.
  split; [ | apply (sample_power_factor_range _ _ _ _ _ Hs)].
  assert (Hm : 0 < sqrt (r ^ 2 + compensated_impedance_imag x e ^ 2))
    by (apply hypot_pos; left; lra).
  rewrite calculate_power_factor_closed in Hs by assumption.
  cbv zeta in Hs. injection Hs as <-. cbn [sample_power_factor].
  match goal with |- 0 < Rmax 0 ?t => set (q := t) end.
  assert (Hq : 0 < q).
  { unfold q. apply Rdiv_lt_0_compat; [exact Hr | apply sqrt_lt_R0; nra]. }
  rewrite Rmax_right by lra. exact Hq.
Qed.

(** [update_simulation] on a state with voltage 230 and positive impedance
    dials: what the state it returns satisfies. *)
Lemma update_simulation_establishes (self : t) :
  voltage self = 230 ->
  0 < RotaryDial.value (real_impedance_dial self) ->
  0 < RotaryDial.value (imag_impedance_dial self) ->
  Forall (fun p => 0 < p <= 1) (power_factor_history self) ->
  exists self',
    update_simulation self = inr self'
    /\ voltage self' = 230
    /\ impedance_real self' = RotaryDial.value (real_impedance_dial self')
    /\ impedance_imag self' = RotaryDial.value (imag_impedance_dial self')
    /\ excitation_current self' = RotaryDial.value (excitation_dial self')
    /\ ax_pf self' = power_factor_history self'
    /\ Forall (fun p => 0 < p <= 1) (power_factor_history self')
    /\ status_shows_sample self'
    /\ real_impedance_dial self' = real_impedance_dial self
    /\ imag_impedance_dial self' = imag_impedance_dial self
    /\ excitation_dial self' = excitation_dial self
    /\ dynamic_mode self' = dynamic_mode self
    /\ scheduled self' = scheduled self
    /\ length (power_factor_history self') = S (length (power_factor_history self)).
Proof.
  intros Hv Hr Hi Hh.
  destruct (update_simulation_returns self) as (c & pf & a & rp & ap & q & Hs & Hu).
  assert (Hv0 : voltage self <> 0) by lra.
  destruct (sample_message (voltage self)
              (RotaryDial.value (real_impedance_dial self))
              (RotaryDial.value (imag_impedance_dial self))
              (RotaryDial.value (excitation_dial self)) Hv0 Hr)
    as (c' & pf' & a' & rp' & ap' & q' & Hs' & msg & Hmsg & _).
  rewrite Hs in Hs'. injection Hs' as <- <- <- <- <- <-.
  pose proof (sample_power_factor_pos _ _ _ _ _ Hv0 Hr Hs) as Hpf.
  cbn [sample_power_factor] in Hpf.
  eexists. split; [exact Hu | ].
  cbn [voltage impedance_real impedance_imag excitation_current ax_pf
       power_factor_history real_impedance_dial imag_impedance_dial
       excitation_dial dynamic_mode scheduled].
  repeat split; try reflexivity; try assumption.
  - apply Forall_app. split; [exact Hh | ]. constructor; [exact Hpf | constructor].
  - right. exists c, pf, a, rp, ap, q, msg, (power_factor_history self).
    cbn [voltage impedance_real impedance_imag excitation_current ax_vector
         power_factor_history status_display].
    rewrite Hmsg. repeat split; assumption.
  - rewrite length_app. cbn. lia.
Qed.

(** A cycle of [simulate_dynamic_load] is [update_simulation] on the
    perturbed state, followed by the scheduling. *)
Lemma simulate_dynamic_load_cycle (self : t) (u1 u2 : R) :
  dynamic_mode self = true ->
  simulate_dynamic_load self u1 u2
  = (s <- update_simulation (perturbed self u1 u2) ;;
     ret (set_scheduled s (S (scheduled s)))).
Proof.
  intros Hon. unfold simulate_dynamic_load. rewrite Hon. reflexivity.
Qed.

Lemma perturbed_positive (self : t) (u1 u2 : R) :
  0 <= u1 < 1 -> 0 <= u2 < 1 ->
  0 < RotaryDial.value (real_impedance_dial self) ->
  0 < RotaryDial.value (imag_impedance_dial self) ->
  0 < RotaryDial.value (real_impedance_dial (perturbed self u1 u2))
  /\ 0 < RotaryDial.value (imag_impedance_dial (perturbed self u1 u2)).
Proof.
  intros Hu1 Hu2 Hr Hi. cbn.
  pose proof (random_uniform_range 0.95 1.05 u1 ltac:(lra) Hu1).
  pose proof (random_uniform_range 0.95 1.05 u2 ltac:(lra) Hu2).
  split; apply Rmult_lt_0_compat; lra.
Qed.

Lemma recompute_keeps_invariant (self self' : t) :
  voltage self = 230 ->
  0 < RotaryDial.value (real_impedance_dial self) ->
  0 < RotaryDial.value (imag_impedance_dial self) ->
  Forall (fun p => 0 < p <= 1) (power_factor_history self) ->
  update_simulation self = inr self' ->
  (dynamic_mode self' = true -> (0 < scheduled self')%nat) ->
  session_invariant self' /\ status_shows_sample self'.
Proof.
  intros Hv Hr Hi Hh Hu Hs.
  destruct (update_simulation_establishes self Hv Hr Hi Hh)
    as (s1 & Hu1 & V & Pr & Pi & Pe & Hp & Hf & Hst & Dr & Di & De & _ & _ & _).
  rewrite Hu in Hu1. injection Hu1 as <-.
  split; [ | exact Hst].
  unfold session_invariant. rewrite Dr, Di.
  rewrite Dr in Pr. rewrite Di in Pi.
  repeat split; try assumption; lra.
Qed.

Lemma recompute_then_schedule (self s1 : t) (k : nat) :
  voltage self = 230 ->
  0 < RotaryDial.value (real_impedance_dial self) ->
  0 < RotaryDial.value (imag_impedance_dial self) ->
  Forall (fun p => 0 < p <= 1) (power_factor_history self) ->
  update_simulation self = inr s1 ->
  (0 < k)%nat ->
  session_invariant (set_scheduled s1 k) /\ status_shows_sample (set_scheduled s1 k).
Proof.
  intros Hv Hr Hi Hh Hu Hk.
  destruct (update_simulation_establishes self Hv Hr Hi Hh)
    as (s2 & Hu2 & V & Pr & Pi & Pe & Hp & Hf & Hst & Dr & Di & De & _ & _ & _).
  rewrite Hu in Hu2. injection Hu2 as <-.
  split; [ | exact Hst].
  unfold session_invariant. cbn.
  rewrite Dr, Di. rewrite Dr in Pr. rewrite Di in Pi.
  repeat split; try assumption; try lra.
  intros _. exact Hk.
Qed.

(** One cycle of [simulate_dynamic_load] keeps what holds of a session. *)
Lemma cycle_keeps_invariant (self self' : t) (u1 u2 : R) :
  voltage self = 230 ->
  0 < RotaryDial.value (real_impedance_dial self) ->
  0 < RotaryDial.value (imag_impedance_dial self) ->
  Forall (fun p => 0 < p <= 1) (power_factor_history self) ->
  dynamic_mode self = true ->
  0 <= u1 < 1 -> 0 <= u2 < 1 ->
  simulate_dynamic_load self u1 u2 = inr self' ->
  session_invariant self' /\ status_shows_sample self'.
Proof.
  intros V Hr Hi Hf Hon Hu1 Hu2 Hl.
  rewrite simulate_dynamic_load_cycle in Hl by exact Hon.
  destruct (perturbed_positive self u1 u2 Hu1 Hu2 Hr Hi) as [Pr Pi].
  destruct (update_simulation (perturbed self u1 u2)) as [err | s1] eqn:Hu;
    cbn [bind] in Hl; [discriminate | ].
  injection Hl as <-.
  apply (recompute_then_schedule (perturbed self u1 u2)); try assumption. lia.
Qed.

(** Every handler keeps what holds of a session. *)
Lemma handle_keeps_invariant (self : t) (e : event) (self' : t) :
  dials_configured self ->
  session_invariant self /\ status_shows_sample self ->
  enabled self e ->
  handle self e = inr self' ->
  session_invariant self' /\ status_shows_sample self'.
Proof.
  intros Hc [Hinv Hst] Hen He.
  pose proof Hinv as (V & Pr & Pi & Pe & Hr & Hi & Hp & Hf & Hsch).
  destruct e as [d x y | | u1 u2 | u1 u2]; cbn [handle] in He.
  - assert (Hstep : RotaryDial.step (get_dial self d) <> 0).
    { destruct Hc as (? & ? & S1 & ? & ? & S2 & ? & ? & S3).
      destruct d; cbn; lra. }
    destruct (on_drag_returns (get_dial self d) x y Hstep) as (a & v & Hd).
    rewrite Hd in He. cbn [bind] in He.
    destruct Hc as (A1 & A2 & _ & B1 & B2 & _ & _).
    assert (Cr : 1 <= py_max 1 (py_min 20 v) <= 20) by (apply dial_clamp_range; lra).
    apply (recompute_keeps_invariant _ _) with (5 := He).
    + exact V.
    + destruct d; cbn; rewrite ?A1, ?A2; lra.
    + destruct d; cbn; rewrite ?B1, ?B2; lra.
    + exact Hf.
    + destruct (update_simulation_effect
                  (set_dial self d
                     (RotaryDial.mk (RotaryDial.min_val (get_dial self d))
                        (RotaryDial.max_val (get_dial self d))
                        (py_max (RotaryDial.min_val (get_dial self d))
                           (py_min (RotaryDial.max_val (get_dial self d)) v))
                        (RotaryDial.step (get_dial self d)) a)))
        as (sample & s1 & _ & Hu & _ & _ & _ & _ & _ & _ & Hm & Hq & _).
      rewrite Hu in He. injection He as <-.
      rewrite Hm, Hq. exact Hsch.
  - injection He as <-. split; [ | exact Hst].
    unfold session_invariant. cbn.
    repeat split; try assumption; try lra; try discriminate.
  - destruct Hen as [Hu1 Hu2].
    apply (cycle_keeps_invariant (set_dynamic_mode_flag self true) self' u1 u2);
      try assumption. reflexivity.
  - destruct Hen as (Hn & Hu1 & Hu2).
    destruct (scheduled self) as [ | n] eqn:Hs; [lia | ].
    destruct (dynamic_mode self) eqn:Hm.
    + apply (cycle_keeps_invariant (set_scheduled self n) self' u1 u2);
        try assumption.
    + rewrite simulate_dynamic_load_off in He by exact Hm.
      injection He as <-. split; [ | exact Hst].
      unfold session_invariant. cbn. rewrite Hm.
      repeat split; try assumption; try lra; try discriminate.
Qed.

Lemma reachable_invariant (self : t) :
  reachable self -> session_invariant self /\ status_shows_sample self.
Proof.
  induction 1 as [s Hi | s e s' Hr IH Hen He].
  - rewrite init_returns in Hi. injection Hi as <-.
    split.
    + unfold session_invariant. cbn.
      repeat split; try reflexivity; try lra; try constructor; try discriminate.
    + left. cbn. repeat split.
  - destruct (reachable_configuration _ Hr) as [Hc _].
    exact (handle_keeps_invariant _ _ _ Hc IH Hen He).
Qed.

Lemma initial_reachable : reachable initial_state.
Proof. apply reachable_init. exact init_returns. Qed.

(** ** What holds in every state of a session *)

(** X21.  In every reachable state the voltage is 230, the three
    parameters of the session are the current values of the three dials,
    both impedances are positive, and the power-factor plot shows exactly
    the history. *)
Theorem session_follows_dials (self : t) :
  reachable self ->
  voltage self = 230
  /\ impedance_real self = RotaryDial.value (real_impedance_dial self)
  /\ impedance_imag self = RotaryDial.value (imag_impedance_dial self)
  /\ excitation_current self = RotaryDial.value (excitation_dial self)
  /\ 0 < impedance_real self
  /\ 0 < impedance_imag self
  /\ ax_pf self = power_factor_history self.
Proof.
  intros Hr.
  destruct (reachable_invariant self Hr)
    as [(V & Pr & Pi & Pe & Hre & Him & Hp & _ & _) _].
  repeat split; try assumption; lra.
Qed.

(** The state the program starts in. *)
Lemma session_follows_dials_witness :
  reachable initial_state
  /\ voltage initial_state = 230
  /\ impedance_real initial_state
     = RotaryDial.value (real_impedance_dial initial_state)
  /\ impedance_imag initial_state
     = RotaryDial.value (imag_impedance_dial initial_state)
  /\ excitation_current initial_state
     = RotaryDial.value (excitation_dial initial_state)
  /\ 0 < impedance_real initial_state
  /\ 0 < impedance_imag initial_state
  /\ ax_pf initial_state = power_factor_history initial_state.
Proof.
  split; [exact initial_reachable | ].
  exact (session_follows_dials initial_state initial_reachable).
Defined.





(** X24.  In every reachable state in dynamic mode at least one callback
    is scheduled: the chain of callbacks cannot die while the mode is on. *)
Theorem dynamic_mode_has_callback (self : t) :
  reachable self ->
  dynamic_mode self = true ->
  (0 < scheduled self)%nat.
Proof.
  intros Hr.
  destruct (reachable_invariant self Hr) as [(_ & _ & _ & _ & _ & _ & _ & _ & Hs) _].
  exact Hs.
Qed.

(** The state after a click on "Dynamic Mode". *)
Lemma dynamic_mode_has_callback_witness :
  exists self,
    handle initial_state (DynamicModeButton (1 / 4) (1 / 2)) = inr self
    /\ reachable self
    /\ dynamic_mode self = true
    /\ (0 < scheduled self)%nat.
Proof.
  destruct (simulate_dynamic_load_on (set_dynamic_mode_flag initial_state true)
              (1 / 4) (1 / 2) eq_refl)
    as (sample & self & Hl & _ & _ & _ & _ & _ & _ & _ & _ & _ & Hm & _).
  assert (Hen : enabled initial_state (DynamicModeButton (1 / 4) (1 / 2)))
    by (cbn; lra).
  assert (Hr : reachable self)
    by exact (reachable_handle _ _ _ initial_reachable Hen Hl).
  exists self. split; [exact Hl | ]. split; [exact Hr | ]. split; [exact Hm | ].
  exact (dynamic_mode_has_callback self Hr Hm).
Defined.

(** ** Runs of the handlers *)

Lemma dynamic_click_effect (self : t) (u1 u2 : R) :
  exists self',
    handle self (DynamicModeButton u1 u2) = inr self'
    /\ scheduled self' = S (scheduled self)
    /\ dynamic_mode self' = true
    /\ length (power_factor_history self') = S (length (power_factor_history self)).
Proof.
  destruct (simulate_dynamic_load_on (set_dynamic_mode_flag self true) u1 u2 eq_refl)
    as (sample & s1 & Hl & _ & _ & _ & _ & _ & _ & Hh & _ & Hq & Hm & _).
  exists s1. split; [exact Hl | ]. split; [exact Hq | ]. split; [exact Hm | ].
  rewrite Hh, length_app. cbn. lia.
Qed.

Lemma firing_effect_on (self : t) (n : nat) (u1 u2 : R) :
  dynamic_mode self = true ->
  scheduled self = S n ->
  exists self',
    handle self (AfterFires u1 u2) = inr self'
    /\ scheduled self' = S n
    /\ dynamic_mode self' = true
    /\ length (power_factor_history self') = S (length (power_factor_history self))
    /\ runs_cycle self (AfterFires u1 u2) = true.
Proof.
  intros Hon Hn. cbn [handle runs_cycle]. rewrite Hn.
  destruct (simulate_dynamic_load_on (set_scheduled self n) u1 u2 Hon)
    as (sample & s1 & Hl & _ & _ & _ & _ & _ & _ & Hh & _ & Hq & Hm & _).
  exists s1. split; [exact Hl | ]. split; [exact Hq | ]. split; [exact Hm | ].
  split; [ | exact Hon].
  rewrite Hh, length_app. cbn. lia.
Qed.

(** X25.  Every click on "Dynamic Mode" runs a cycle at once and
    schedules a callback of its own, whether or not the mode was already on
    and whatever is already scheduled, and nothing ever cancels a callback:
    after [n] clicks in a row there are [n] more callbacks scheduled and [n]
    more samples in the history. *)
Theorem every_click_adds_a_chain (self : t) (es : list event) :
  Forall is_dynamic_click es ->
  exists self',
    run self es = inr self'
    /\ scheduled self' = (scheduled self + length es)%nat
    /\ cycles self es = length es
    /\ length (power_factor_history self')
       = (length (power_factor_history self) + length es)%nat
    /\ (es <> [] -> dynamic_mode self' = true).
Proof.
  intros Hes. revert self.
  induction Hes as [ | e es He Hes IH]; intros self.
  - exists self. cbn. repeat split; try lia. congruence.
  - destruct e as [d x y | | u1 u2 | u1 u2]; try destruct He.
    destruct (dynamic_click_effect self u1 u2) as (s1 & H1 & Hq1 & Hm1 & Hh1).
    destruct (IH s1) as (s' & Hrun & Hq & Hc & Hh & Hm).
    exists s'. cbn [run cycles runs_cycle]. rewrite H1. cbn [bind].
    split; [exact Hrun | ].
    split; [rewrite Hq, Hq1; cbn; lia | ].
    split; [rewrite Hc; cbn; lia | ].
    split; [rewrite Hh, Hh1; cbn; lia | ].
    intros _. destruct es as [ | e' es'].
    + cbn in Hrun. injection Hrun as <-. exact Hm1.
    + apply Hm. discriminate.
Qed.

(** Two clicks in a row at the start of the program. *)
Lemma every_click_adds_a_chain_witness :
  Forall is_dynamic_click [DynamicModeButton (1 / 4) (1 / 2); DynamicModeButton (1 / 2) (1 / 4)]
  /\ exists self',
      run initial_state
          [DynamicModeButton (1 / 4) (1 / 2); DynamicModeButton (1 / 2) (1 / 4)]
      = inr self'
      /\ scheduled self' = (scheduled initial_state + 2)%nat
      /\ cycles initial_state
           [DynamicModeButton (1 / 4) (1 / 2); DynamicModeButton (1 / 2) (1 / 4)]
         = 2%nat
      /\ length (power_factor_history self')
         = (length (power_factor_history initial_state) + 2)%nat
      /\ ([DynamicModeButton (1 / 4) (1 / 2); DynamicModeButton (1 / 2) (1 / 4)] <> []
          -> dynamic_mode self' = true).
Proof.
  assert (H : Forall is_dynamic_click
                [DynamicModeButton (1 / 4) (1 / 2); DynamicModeButton (1 / 2) (1 / 4)])
    by (repeat constructor).
  split; [exact H | ].
  exact (every_click_adds_a_chain initial_state _ H).
Defined.

(** X26.  In dynamic mode with a callback scheduled, every firing runs a
    cycle and schedules its successor: over any number of firings the number
    of scheduled callbacks stays the same, the mode stays on, and each
    firing adds one sample to the history. *)
Theorem chain_sustains_itself (self : t) (es : list event) :
  dynamic_mode self = true ->
  (0 < scheduled self)%nat ->
  Forall is_firing es ->
  exists self',
    run self es = inr self'
    /\ scheduled self' = scheduled self
    /\ dynamic_mode self' = true
    /\ cycles self es = length es
    /\ length (power_factor_history self')
       = (length (power_factor_history self) + length es)%nat.
Proof.
  intros Hon Hq Hes. revert self Hon Hq.
  induction Hes as [ | e es He Hes IH]; intros self Hon Hq.
  - exists self. cbn. repeat split; try lia. exact Hon.
  - destruct e as [d x y | | u1 u2 | u1 u2]; try destruct He.
    destruct (scheduled self) as [ | n] eqn:Hn; [lia | ].
    destruct (firing_effect_on self n u1 u2 Hon Hn) as (s1 & H1 & Hq1 & Hm1 & Hh1 & Hc1).
    destruct (IH s1 Hm1) as (s' & Hrun & Hq' & Hm & Hc & Hh); [lia | ].
    exists s'. cbn [run cycles]. rewrite H1, Hc1. cbn [bind].
    split; [exact Hrun | ].
    split; [lia | ].
    split; [exact Hm | ].
    split; [rewrite Hc; cbn; lia | ].
    rewrite Hh, Hh1. cbn. lia.
Qed.

(** Two firings in a state in dynamic mode with one callback scheduled. *)
Lemma chain_sustains_itself_witness :
  (dynamic_mode (set_scheduled (set_dynamic_mode_flag initial_state true) 1) = true
   /\ (0 < scheduled (set_scheduled (set_dynamic_mode_flag initial_state true) 1))%nat
   /\ Forall is_firing [AfterFires (1 / 4) (1 / 2); AfterFires (1 / 2) (1 / 4)])
  /\ exists self',
      run (set_scheduled (set_dynamic_mode_flag initial_state true) 1)
          [AfterFires (1 / 4) (1 / 2); AfterFires (1 / 2) (1 / 4)] = inr self'
      /\ scheduled self'
         = scheduled (set_scheduled (set_dynamic_mode_flag initial_state true) 1)
      /\ dynamic_mode self' = true
      /\ cycles (set_scheduled (set_dynamic_mode_flag initial_state true) 1)
           [AfterFires (1 / 4) (1 / 2); AfterFires (1 / 2) (1 / 4)] = 2%nat
      /\ length (power_factor_history self')
         = (length (power_factor_history
                      (set_scheduled (set_dynamic_mode_flag initial_state true) 1))
            + 2)%nat.
Proof.
  assert (H1 : dynamic_mode (set_scheduled (set_dynamic_mode_flag initial_state true) 1)
               = true) by reflexivity.
  assert (H2 : (0 < scheduled (set_scheduled (set_dynamic_mode_flag initial_state true) 1))%nat)
    by (cbn; lia).
  assert (H3 : Forall is_firing [AfterFires (1 / 4) (1 / 2); AfterFires (1 / 2) (1 / 4)])
    by (repeat constructor).
  split; [split; [exact H1 | split; [exact H2 | exact H3]] | ].
  exact (chain_sustains_itself _ _ H1 H2 H3).
Defined.




(** ** Plot, frame of a drag, and the pointers in dynamic mode *)

(** X28.  [update_plot] does not use its argument [current]: the arrow
    labelled as the current is drawn at the phase angle with the length of
    the voltage, whatever the current is.  The other arrow is the voltage
    along the horizontal axis, and the power-factor line is the history. *)
Theorem current_arrow_has_voltage_length (self : t) (angle current : R) :
  update_plot self angle current = update_plot self angle 0
  /\ exists current_x current_y,
      ax_vector (update_plot self angle current)
      = [(voltage self, 0); (current_x, current_y)]
      /\ current_x ^ 2 + current_y ^ 2 = voltage self ^ 2
      /\ ax_pf (update_plot self angle current) = power_factor_history self.
Proof.
  split; [reflexivity | ].
  do 2 eexists. split; [reflexivity | ]. split; [ | reflexivity].
  set (a := math_radians angle).
  pose proof (sin2_cos2 a) as H. unfold Rsqr in H. nra.
Qed.

(** X29.  In a reachable state a drag on one dial returns, appends one
    sample to the history, and leaves the other two dials and their
    parameters, the voltage, the mode and the scheduled callbacks as they
    were. *)
Theorem drag_frame (self : t) (d : dial_id) (x y : Z) :
  reachable self ->
  exists self',
    handle self (B1Motion d x y) = inr self'
    /\ length (power_factor_history self') = S (length (power_factor_history self))
    /\ (forall d', d' <> d -> get_dial self' d' = get_dial self d')
    /\ (d <> RealImpedance -> impedance_real self' = impedance_real self)
    /\ (d <> ImagImpedance -> impedance_imag self' = impedance_imag self)
    /\ (d <> Excitation -> excitation_current self' = excitation_current self)
    /\ voltage self' = voltage self
    /\ dynamic_mode self' = dynamic_mode self
    /\ scheduled self' = scheduled self.
Proof.
  intros Hr.
  destruct (reachable_invariant self Hr) as [(_ & Pr & Pi & Pe & _) _].
  destruct (reachable_handle_returns self (B1Motion d x y) Hr) as [s' He].
  exists s'. split; [exact He | ].
  cbn [handle] in He.
  destruct (RotaryDial.on_drag (get_dial self d) x y) as [err | dial];
    cbn [bind] in He; [discriminate | ].
  destruct (update_simulation_effect (set_dial self d dial))
    as (sample & s1 & _ & Hu & Hh & _ & Hre & Him & Hex & Hd & Hm & Hq & Hv).
  rewrite Hu in He. injection He as <-.
  split; [rewrite Hh, length_app; cbn; lia | ].
  split.
  { intros d' Hne. rewrite Hd. destruct d, d'; try reflexivity; contradiction. }
  split.
  { intros Hne. rewrite Hre, Pr. destruct d; try reflexivity. contradiction. }
  split.
  { intros Hne. rewrite Him, Pi. destruct d; try reflexivity. contradiction. }
  split.
  { intros Hne. rewrite Hex, Pe. destruct d; try reflexivity. contradiction. }
  repeat split; assumption.
Qed.

(** A drag on the excitation dial at the start of the program. *)
Lemma drag_frame_witness :
  reachable initial_state
  /\ exists self',
      handle initial_state (B1Motion Excitation 150 100) = inr self'
      /\ length (power_factor_history self')
         = S (length (power_factor_history initial_state))
      /\ (forall d', d' <> Excitation -> get_dial self' d' = get_dial initial_state d')
      /\ (Excitation <> RealImpedance ->
          impedance_real self' = impedance_real initial_state)
      /\ (Excitation <> ImagImpedance ->
          impedance_imag self' = impedance_imag initial_state)
      /\ (Excitation <> Excitation ->
          excitation_current self' = excitation_current initial_state)
      /\ voltage self' = voltage initial_state
      /\ dynamic_mode self' = dynamic_mode initial_state
      /\ scheduled self' = scheduled initial_state.
Proof.
  split; [exact initial_reachable | ].
  exact (drag_frame initial_state Excitation 150 100 initial_reachable).
Defined.

(** X30.  A cycle of [simulate_dynamic_load] changes the values of the
    two impedance dials but not the angle of any dial, so [draw_dial] puts
    every pointer where it was: in dynamic mode the pointers do not follow
    the values.  Bounds and steps stay as well. *)
Theorem cycle_leaves_pointers (self : t) (u1 u2 : R) :
  dynamic_mode self = true ->
  exists self',
    simulate_dynamic_load self u1 u2 = inr self'
    /\ RotaryDial.value (real_impedance_dial self')
       = RotaryDial.value (real_impedance_dial self) * random_uniform 0.95 1.05 u1
    /\ RotaryDial.value (imag_impedance_dial self')
       = RotaryDial.value (imag_impedance_dial self) * random_uniform 0.95 1.05 u2
    /\ forall d,
        RotaryDial.angle (get_dial self' d) = RotaryDial.angle (get_dial self d)
        /\ RotaryDial.pointer_tip (get_dial self' d)
           = RotaryDial.pointer_tip (get_dial self d)
        /\ RotaryDial.min_val (get_dial self' d) = RotaryDial.min_val (get_dial self d)
        /\ RotaryDial.max_val (get_dial self' d) = RotaryDial.max_val (get_dial self d)
        /\ RotaryDial.step (get_dial self' d) = RotaryDial.step (get_dial self d).
Proof.
  intros Hon.
  destruct (simulate_dynamic_load_on self u1 u2 Hon)
    as (sample & s1 & Hl & Hvr & Hvi & He & _ & _ & _ & _ & _ & _ & _ & Hr & Hi & _).
  exists s1. split; [exact Hl | ]. split; [exact Hvr | ]. split; [exact Hvi | ].
  intros d. destruct d; cbn [get_dial]; rewrite ?Hr, ?Hi, ?He;
    repeat split; reflexivity.
Qed.

(** The initial state with the mode switched on. *)
Lemma cycle_leaves_pointers_witness :
  dynamic_mode (set_dynamic_mode_flag initial_state true) = true
  /\ exists self',
      simulate_dynamic_load (set_dynamic_mode_flag initial_state true) (1 / 4) (1 / 2)
      = inr self'
      /\ RotaryDial.value (real_impedance_dial self')
         = RotaryDial.value (real_impedance_dial (set_dynamic_mode_flag initial_state true))
           * random_uniform 0.95 1.05 (1 / 4)
      /\ RotaryDial.value (imag_impedance_dial self')
         = RotaryDial.value (imag_impedance_dial (set_dynamic_mode_flag initial_state true))
           * random_uniform 0.95 1.05 (1 / 2)
      /\ forall d,
          RotaryDial.angle (get_dial self' d)
          = RotaryDial.angle (get_dial (set_dynamic_mode_flag initial_state true) d)
          /\ RotaryDial.pointer_tip (get_dial self' d)
             = RotaryDial.pointer_tip (get_dial (set_dynamic_mode_flag initial_state true) d)
          /\ RotaryDial.min_val (get_dial self' d)
             = RotaryDial.min_val (get_dial (set_dynamic_mode_flag initial_state true) d)
          /\ RotaryDial.max_val (get_dial self' d)
             = RotaryDial.max_val (get_dial (set_dynamic_mode_flag initial_state true) d)
          /\ RotaryDial.step (get_dial self' d)
             = RotaryDial.step (get_dial (set_dynamic_mode_flag initial_state true) d).
Proof.
  split; [reflexivity | ].
  exact (cycle_leaves_pointers (set_dynamic_mode_flag initial_state true)
           (1 / 4) (1 / 2) eq_refl).
Defined.
